(** * Chunking core of [generate_benchmark_with_difficulty.py]

    A shallow embedding of the text pipeline of [load_pdfs]: whitespace
    normalisation, sentence segmentation, greedy chunk accumulation with
    overlap, and the per-run statistics.

    Python strings are sequences of code points.  They are modelled as lists
    of [ascii] characters, that is, the code points 0..255; [isspace] is
    Python's [str.isspace] / regex [\s] restricted to that range.  Integers
    that may be negative ([chunk_size], [overlap_size]) are [Z]; Python's
    floor division [//] by 4 is [Z.div]. *)

From Equations Require Import Equations.
From Stdlib Require Import Ascii String.
From Stdlib Require Import List Arith ZArith Lia Bool.
Import ListNotations.

Set Default Goal Selector "!".

(** ** Strings *)

Definition pystr := list ascii.

(** A literal of the source, as a list of characters. *)
Definition lit (s : string) : pystr := list_ascii_of_string s.

Definition is_nonempty {A : Type} (l : list A) : bool :=
  match l with [] => false | _ :: _ => true end.

(** Python's whitespace test on the code points below 256:
    TAB, LF, VT, FF, CR, the separators FS, GS, RS, US, the space, NEL and
    the no-break space. *)
Definition isspace (c : ascii) : bool :=
  let n := nat_of_ascii c in
  ((9 <=? n) && (n <=? 13)) || ((28 <=? n) && (n <=? 32))
  || (n =? 133) || (n =? 160).

(** The characters of the class [[.!?]]. *)
Definition is_terminator (c : ascii) : bool :=
  let n := nat_of_ascii c in
  (n =? 46) || (n =? 33) || (n =? 63).

Definition SP : ascii := " "%char.

Arguments isspace : simpl never.
Arguments is_terminator : simpl never.

Fixpoint drop_while (p : ascii -> bool) (s : pystr) : pystr :=
  match s with
  | [] => []
  | c :: s' => if p c then drop_while p s' else s
  end.

Fixpoint take_while (p : ascii -> bool) (s : pystr) : pystr :=
  match s with
  | [] => []
  | c :: s' => if p c then c :: take_while p s' else []
  end.

(** [str.lstrip()], [str.rstrip()] and [str.strip()] with no argument. *)
Definition lstrip (s : pystr) : pystr := drop_while isspace s.
Definition rstrip (s : pystr) : pystr := rev (drop_while isspace (rev s)).
Definition strip (s : pystr) : pystr := rstrip (lstrip s).

(** ** Normalizer: [re.sub(r'\s+', ' ', full_text).strip()] (line 64) *)

Lemma drop_while_length (p : ascii -> bool) (s : pystr) :
  length (drop_while p s) <= length s.
Proof.
  induction s as [|c s IH]; simpl; [lia|].
  destruct (p c); simpl; lia.
Qed.

(** [re.sub(r'\s+', ' ', s)]: scanning from the left, every match of [\s+]
    (greedy, hence a maximal run of whitespace) is replaced by one space;
    the characters between matches are copied. *)
Equations? re_sub_ws (s : pystr) : pystr by wf (length s) lt :=
  re_sub_ws [] := [];
  re_sub_ws (c :: s') with isspace c := {
    | true := SP :: re_sub_ws (drop_while isspace s');
    | false := c :: re_sub_ws s' }.
Proof.
  all: simpl; pose proof (drop_while_length isspace s'); lia.
Qed.

Definition clean_text (full_text : pystr) : pystr :=
  strip (re_sub_ws full_text).

(** ** Sentence segmenter (lines 68-73) *)

(** One attempt to match [[.!?]+\s+] at the head of [s]: the greedy run of
    terminators, then the greedy run of whitespace, both non-empty.  Giving
    back terminators cannot help (the character after a shorter run is a
    terminator, not whitespace), so the greedy attempt decides.  On success
    the matched text and the text after it are returned. *)
Definition match_here (s : pystr) : option (pystr * pystr) :=
  let terms := take_while is_terminator s in
  let after_terms := drop_while is_terminator s in
  let spaces := take_while isspace after_terms in
  if is_nonempty terms && is_nonempty spaces
  then Some (terms ++ spaces, drop_while isspace after_terms)
  else None.

(** Leftmost match of the pattern in [s]: the text before it, the match and
    the text after it. *)
Fixpoint find_match (s : pystr) : option (pystr * pystr * pystr) :=
  match match_here s with
  | Some (m, rest) => Some ([], m, rest)
  | None =>
      match s with
      | [] => None
      | c :: s' =>
          match find_match s' with
          | Some (pre, m, rest) => Some (c :: pre, m, rest)
          | None => None
          end
      end
  end.

Lemma take_drop_while (p : ascii -> bool) (s : pystr) :
  take_while p s ++ drop_while p s = s.
Proof.
  induction s as [|c s IH]; simpl; [reflexivity|].
  destruct (p c); simpl; [now rewrite IH | reflexivity].
Qed.

Lemma match_here_length (s m rest : pystr) :
  match_here s = Some (m, rest) -> length rest < length s.
Proof.
  unfold match_here. intros H.
  destruct (take_while is_terminator s) as [|t ts] eqn:Et; simpl in H;
    [discriminate|].
  destruct (is_nonempty _); [|discriminate].
  injection H as _ <-.
  pose proof (take_drop_while is_terminator s) as E.
  rewrite Et in E. apply (f_equal (@length ascii)) in E.
  rewrite length_app in E. simpl in E.
  pose proof (drop_while_length isspace (drop_while is_terminator s)). lia.
Qed.

Lemma find_match_length (s pre m rest : pystr) :
  find_match s = Some (pre, m, rest) -> length rest < length s.
Proof.
  revert pre m rest. induction s as [|c s IH]; intros pre m rest H.
  - simpl in H. discriminate.
  - cbn [find_match] in H.
    destruct (match_here (c :: s)) as [[m0 r0]|] eqn:Em.
    + injection H as _ _ <-. now apply match_here_length in Em.
    + destruct (find_match s) as [[[p1 m1] r1]|] eqn:Ef; [|discriminate].
      injection H as _ _ <-. specialize (IH _ _ _ eq_refl). simpl. lia.
Qed.

(** A value together with the equation that names it, so that the
    termination proof below sees which match was found. *)
Definition inspect {A : Type} (a : A) : {b : A | a = b} := exist _ a eq_refl.

(** [re.split(r'([.!?]+\s+)', s)]: the pattern is one capturing group, so
    the result alternates text and separator,
    [[text0, sep0, text1, sep1, ..., textN]] (always an odd number of
    items). *)
Equations? re_split (s : pystr) : list pystr by wf (length s) lt :=
  re_split s with inspect (find_match s) := {
    | exist _ (Some (pre, m, rest)) _ := pre :: m :: re_split rest;
    | exist _ None _ := [s] }.
Proof.
  eapply find_match_length; eassumption.
Qed.

(** [range(0, stop, 2)] for a natural [stop]. *)
Definition range_by_2 (stop : nat) : list nat :=
  map (fun k => 2 * k) (seq 0 (Nat.div2 (stop + 1))).

(** Lines 69-73: the loop over [range(0, len(sentences)-1, 2)].
    [re.split] returns at least one item, so [len(sentences)-1] is a
    natural number. *)
Definition clean_sentences_of (sentences : list pystr) : list pystr :=
  flat_map
    (fun i =>
       let sent :=
         nth i sentences []
         ++ (if i + 1 <? length sentences then nth (i + 1) sentences [] else [])
       in
       if is_nonempty (strip sent) then [strip sent] else [])
    (range_by_2 (length sentences - 1)).

Definition split_sentences (full_text : pystr) : list pystr :=
  clean_sentences_of (re_split full_text).

(** ** Chunk accumulator (lines 76-107) *)

Record chunker := mkChunker {
  chunks : list pystr;
  current_chunk : pystr;
  sentence_buffer : list pystr }.

(** Lines 92-98: the loop over [reversed(sentence_buffer)], with its
    [break]; the state is [(overlap_chunk, overlap_sentences)]. *)
Fixpoint overlap_loop (overlap_size : Z) (reversed_buffer : list pystr)
    (overlap_chunk : pystr) (overlap_sentences : list pystr)
    : pystr * list pystr :=
  match reversed_buffer with
  | [] => (overlap_chunk, overlap_sentences)
  | s :: older =>
      let test_overlap := s ++ [SP] ++ overlap_chunk in
      if (Z.of_nat (length test_overlap) <? overlap_size)%Z
      then overlap_loop overlap_size older test_overlap (s :: overlap_sentences)
      else (overlap_chunk, overlap_sentences)
  end.

Definition create_overlap (overlap_size : Z) (buffer : list pystr)
    : pystr * list pystr :=
  overlap_loop overlap_size (rev buffer) [] [].

(** Lines 82-104: the body of [for sent in clean_sentences]. *)
Definition chunk_step (chunk_size : Z) (st : chunker) (sent : pystr) : chunker :=
  let overlap_size := (chunk_size / 4)%Z in
  if (Z.of_nat (length (current_chunk st)) + Z.of_nat (length sent) + 1
      <? chunk_size)%Z
  then mkChunker (chunks st)
                 (current_chunk st ++ sent ++ [SP])
                 (sentence_buffer st ++ [sent])
  else if is_nonempty (current_chunk st)
  then
    let '(overlap_chunk, overlap_sentences) :=
      create_overlap overlap_size (sentence_buffer st) in
    mkChunker (chunks st ++ [strip (current_chunk st)])
              (overlap_chunk ++ sent ++ [SP])
              (overlap_sentences ++ [sent])
  else mkChunker (chunks st) (sent ++ [SP]) [sent].

Definition chunker_init : chunker := mkChunker [] [] [].

Definition chunk_loop (chunk_size : Z) (st : chunker) (sentences : list pystr)
    : chunker :=
  fold_left (chunk_step chunk_size) sentences st.

(** Lines 106-107: the last chunk. *)
Definition chunk_finish (st : chunker) : list pystr :=
  if is_nonempty (current_chunk st)
  then chunks st ++ [strip (current_chunk st)]
  else chunks st.

Definition chunk_sentences (chunk_size : Z) (sentences : list pystr)
    : list pystr :=
  chunk_finish (chunk_loop chunk_size chunker_init sentences).

(** ** Batch runner ([load_pdfs], lines 28-117) *)

(** The [stats] dictionary, with its three keys. *)
Record stats := mkStats {
  files : nat;
  chunk_count : nat;
  total_chars : nat }.

(** What reading one PDF gives: the text of its pages, or [None] when
    opening the file or extracting a page raises. *)
Definition pdf_file := option (list pystr).

(** Lines 59-61: [full_text += page.extract_text() + "\n"]. *)
Definition extract_full_text (pages : list pystr) : pystr :=
  fold_left (fun full_text page => full_text ++ page ++ [ascii_of_nat 10])
            pages [].

(** Lines 64-107 for one extracted text: the new value of
    [stats['total_chars']] is fixed at line 65, before the sentences are
    split and the chunks built. *)
Definition chunk_document (chunk_size : Z) (raw_text : pystr)
    : nat * list pystr :=
  let full_text := clean_text raw_text in
  let added_chars := length full_text in
  let clean_sentences := split_sentences full_text in
  (added_chars, chunk_sentences chunk_size clean_sentences).

(** Lines 53-114: one iteration of [for file_path in pdf_files], with its
    [try]/[except Exception]. *)
Definition process_file (chunk_size : Z) (acc : list pystr * stats)
    (f : pdf_file) : list pystr * stats :=
  let '(docs, st) := acc in
  match f with
  | None => (docs, st)
  | Some pages =>
      let '(added_chars, new_chunks) :=
        chunk_document chunk_size (extract_full_text pages) in
      (docs ++ new_chunks,
       mkStats (files st)
               (chunk_count st + length new_chunks)
               (total_chars st + added_chars))
  end.

Inductive load_error := FileNotFoundError.

Definition load_pdfs (pdf_files : list pdf_file) (chunk_size : Z)
    : load_error + (list pystr * stats) :=
  match pdf_files with
  | [] => inl FileNotFoundError
  | _ :: _ =>
      inr (fold_left (process_file chunk_size) pdf_files
                     ([], mkStats (length pdf_files) 0 0))
  end.

(** ** Dataset preparation ([generate_dataset], lines 120-204) *)

(** [a == b] on strings. *)
Fixpoint pystr_eqb (a b : pystr) : bool :=
  match a, b with
  | [], [] => true
  | x :: a', y :: b' => Ascii.eqb x y && pystr_eqb a' b'
  | _, _ => false
  end.

(** [s.startswith(p)]. *)
Fixpoint starts_with (p s : pystr) : bool :=
  match p, s with
  | [], _ => true
  | _ :: _, [] => false
  | a :: p', b :: s' => Ascii.eqb a b && starts_with p' s'
  end.

(** [s.replace(old, new)] for a non-empty [old = o :: old']: scanning from
    the left, every occurrence of [old] that does not overlap an earlier
    one is replaced by [new]. *)
Equations? replace_scan (o : ascii) (old' new s : pystr) : pystr
    by wf (length s) lt :=
  replace_scan o old' new [] := [];
  replace_scan o old' new (c :: s') with starts_with (o :: old') (c :: s') := {
    | true := new ++ replace_scan o old' new (skipn (length old') s');
    | false := c :: replace_scan o old' new s' }.
Proof.
  all: simpl; rewrite ?length_skipn; lia.
Qed.

(** [s.replace(old, new)]; an empty [old] matches before every character
    and at the end. *)
Definition str_replace (old new s : pystr) : pystr :=
  match old with
  | [] => new ++ flat_map (fun c => c :: new) s
  | o :: old' => replace_scan o old' new s
  end.

(** Line 175: [output_file.replace('.json', '_content.json')]. *)
Definition content_file_of (output_file : pystr) : pystr :=
  str_replace (lit ".json") (lit "_content.json") output_file.

(** Lines 133-155: what the difficulty fixes.  The dictionary
    [distribution] is assigned there too, and never read afterwards; it is
    left out. *)
Record settings := mkSettings {
  target_size : Z;
  question_types : list pystr }.

Definition configure (difficulty : pystr) : settings :=
  if pystr_eqb difficulty (lit "easy") then
    mkSettings 400 [lit "Fact Retrieval"]
  else if pystr_eqb difficulty (lit "medium") then
    mkSettings 900 [lit "Fact Retrieval"; lit "Multi-hop Reasoning"]
  else if pystr_eqb difficulty (lit "hard") then
    mkSettings 1300 [lit "Multi-hop Reasoning"; lit "Comparative Analysis";
                     lit "Contextual Summarization"]
  else
    mkSettings 1000 [lit "Fact Retrieval"; lit "Multi-hop Reasoning";
                     lit "Comparative Analysis"; lit "Contextual Summarization";
                     lit "Creative Generation"].

(** How [generate_dataset] ends: [load_pdfs] raised (nothing catches it),
    no chunk was loaded (line 170, nothing is written), or the chunks and
    the statistics were dumped to the content file (lines 175-177).  The
    call of [install_pypdf] (line 130), which only makes the PDF reader
    available, and what is printed are left out. *)
Inductive dataset_outcome :=
| LoadFailed (e : load_error)
| NoDocuments
| ContentSaved (content_file : pystr) (docs : list pystr) (st : stats).

Section Program.

(** The PDF files that [glob('*.pdf')] finds in a directory, each with what
    reading it gives. *)
Variable pdfs_in : pystr -> list pdf_file.

(** The builtin [int] on a string; [None] when it raises [ValueError]. *)
Variable py_int : pystr -> option Z.

Definition generate_dataset (pdf_dir output_file : pystr) (num_questions : Z)
    (difficulty : pystr) : dataset_outcome :=
  let chunk_size := target_size (configure difficulty) in
  match load_pdfs (pdfs_in pdf_dir) chunk_size with
  | inl e => LoadFailed e
  | inr (docs, st) =>
      if is_nonempty docs
      then ContentSaved (content_file_of output_file) docs st
      else NoDocuments
  end.

(** ** Command line ([main], lines 207-223) *)

Inductive main_outcome :=
| Exit (code : Z)
| ValueError
| Generated (o : dataset_outcome).

Definition valid_difficulties : list pystr :=
  [lit "easy"; lit "medium"; lit "hard"; lit "mixed"].

(** [sys.argv] is [argv]; [argv[0]] is the name of the script. *)
Definition main (argv : list pystr) : main_outcome :=
  if length argv <? 2 then Exit 1
  else
    let pdf_dir := nth 1 argv [] in
    let output_file :=
      if 2 <? length argv then nth 2 argv [] else lit "benchmark_dataset.json" in
    match (if 3 <? length argv then py_int (nth 3 argv []) else Some 20%Z) with
    | None => ValueError
    | Some num_questions =>
        let difficulty :=
          if 4 <? length argv then nth 4 argv [] else lit "mixed" in
        if negb (existsb (pystr_eqb difficulty) valid_difficulties)
        then Exit 1
        else Generated
               (generate_dataset pdf_dir output_file num_questions difficulty)
    end.

End Program.

(** ** Specification vocabulary *)

(** [' '.join(l)]. *)
Fixpoint join_space (l : list pystr) : pystr :=
  match l with
  | [] => []
  | x :: r =>
      match r with
      | [] => x
      | _ :: _ => x ++ [SP] ++ join_space r
      end
  end.

(** Every sentence followed by one space. *)
Definition spaced (l : list pystr) : pystr :=
  concat (map (fun s => s ++ [SP]) l).

(** A text begins, respectively ends, with a character that is not
    whitespace; [clean] texts are the non-empty fixed points of [strip]. *)
Definition starts_ok (x : pystr) : bool :=
  match x with [] => false | c :: _ => negb (isspace c) end.
Definition ends_ok (x : pystr) : bool := starts_ok (rev x).
Definition clean (x : pystr) : bool := starts_ok x && ends_ok x.

(** A text cut into maximal runs: tokens (non-empty, no whitespace) each
    followed by a gap of whitespace, which may be empty only after the last
    token. *)
Definition ws_run (w : pystr) : bool := forallb isspace w.
Definition token (t : pystr) : bool :=
  is_nonempty t && forallb (fun c => negb (isspace c)) t.

Fixpoint assemble (parts : list (pystr * pystr)) : pystr :=
  match parts with
  | [] => []
  | (t, w) :: r => t ++ w ++ assemble r
  end.

Fixpoint gaps_ok (parts : list (pystr * pystr)) : bool :=
  match parts with
  | [] => true
  | (t, w) :: r =>
      token t && ws_run w && (is_nonempty w || negb (is_nonempty r))
      && gaps_ok r
  end.

(** The parts with every non-empty gap shrunk to one space. *)
Fixpoint collapsed (parts : list (pystr * pystr)) : pystr :=
  match parts with
  | [] => []
  | (t, w) :: r => t ++ (if is_nonempty w then [SP] else []) ++ collapsed r
  end.

(** The joined tokens, cut into parts again: one space after every token
    but the last. *)
Fixpoint respace (ts : list pystr) : list (pystr * pystr) :=
  match ts with
  | [] => []
  | t :: r => (t, match r with [] => [] | _ :: _ => [SP] end) :: respace r
  end.

(** Every sentence of the overlap met the budget when the scan reached it:
    its length, the separator and the text built from the more recent
    sentences stay below [overlap_size]. *)
Definition within_budget (overlap_size : Z) (ov : list pystr) : Prop :=
  forall a s b, ov = a ++ s :: b ->
    (Z.of_nat (length s) + 1 + Z.of_nat (length (spaced b)) < overlap_size)%Z.

(** The scan stopped at the most recent sentence left out: that sentence
    did not meet the budget. *)
Definition stopped_at (overlap_size : Z) (dropped ov : list pystr) : Prop :=
  forall k s, dropped = k ++ [s] ->
    (overlap_size <= Z.of_nat (length s) + 1 + Z.of_nat (length (spaced ov)))%Z.

(** The scan of lines 92-98 as the specification words it: a sentence is
    included while [len(sentence) + len(overlapText) < O]. *)
Fixpoint spec_overlap_loop (overlap_size : Z) (reversed_buffer : list pystr)
    (overlap_text : pystr) (overlap_sentences : list pystr)
    : pystr * list pystr :=
  match reversed_buffer with
  | [] => (overlap_text, overlap_sentences)
  | s :: older =>
      if (Z.of_nat (length s) + Z.of_nat (length overlap_text) <? overlap_size)%Z
      then spec_overlap_loop overlap_size older (s ++ [SP] ++ overlap_text)
                             (s :: overlap_sentences)
      else (overlap_text, overlap_sentences)
  end.

Definition spec_create_overlap (overlap_size : Z) (buffer : list pystr)
    : pystr * list pystr :=
  spec_overlap_loop overlap_size (rev buffer) [] [].

(** The text being built is its buffer, every sentence followed by a
    space. *)
Definition text_inv (st : chunker) : Prop :=
  current_chunk st = spaced (sentence_buffer st).

(** The windows of a document, in order of emission.  A window is the
    pair of its overlap and of its home sentences; its buffer is the
    overlap followed by the home sentences.  The first window has no
    overlap, the overlap of every later window is a suffix of the buffer of
    the window before it, and no window is without home sentences.  The
    index is the buffer of the last window. *)
Inductive layout : list pystr -> list (list pystr * list pystr) -> Prop :=
| layout_nil : layout [] []
| layout_snoc (last_buffer : list pystr) windows (ov home : list pystr) :
    layout last_buffer windows ->
    (exists dropped, last_buffer = dropped ++ ov) ->
    home <> [] ->
    layout (ov ++ home) (windows ++ [(ov, home)]).

Definition window_text (w : list pystr * list pystr) : pystr :=
  join_space (fst w ++ snd w).

(** A text occurs in another one. *)
Definition occurs_in (s c : pystr) : Prop :=
  exists pre post, c = pre ++ s ++ post.

(** The state after the sentences [processed]: the windows emitted so far
    and the window being built. *)
Definition window_inv (processed : list pystr) (st : chunker) : Prop :=
  exists last_buffer windows ov home,
    layout last_buffer windows
    /\ (exists dropped, last_buffer = dropped ++ ov)
    /\ sentence_buffer st = ov ++ home
    /\ (home = [] -> sentence_buffer st = [])
    /\ text_inv st
    /\ forallb clean (sentence_buffer st) = true
    /\ chunks st = map window_text windows
    /\ concat (map snd windows) ++ home = processed.

(** The greatest length of a sentence of the list (0 for no sentence). *)
Definition max_sentence_length (sentences : list pystr) : nat :=
  list_max (map (@length ascii) sentences).

(** The bound of a chunk for target [c], longest sentence [l]. *)
Definition size_bound (c : Z) (l : nat) : Z := (c + Z.of_nat l + c / 4)%Z.

Definition size_inv (c : Z) (l : nat) (st : chunker) : Prop :=
  (forall x, In x (chunks st) ->
     (Z.of_nat (length x) < size_bound c l)%Z /\ x <> [])
  /\ (Z.of_nat (length (current_chunk st)) <= size_bound c l)%Z.

(** Some terminator of the text is directly followed by whitespace. *)
Fixpoint has_boundary (s : pystr) : bool :=
  match s with
  | [] => false
  | c :: r =>
      match r with
      | [] => false
      | d :: _ => (is_terminator c && isspace d) || has_boundary r
      end
  end.

(** Whether the pattern matches at the head, by the two greedy runs. *)
Definition matches_here (s : pystr) : bool :=
  is_nonempty (take_while is_terminator s)
  && is_nonempty (take_while isspace (drop_while is_terminator s)).

(** A full match of [[.!?]+\s+]: terminators, then whitespace, both
    non-empty. *)
Definition is_separator (m : pystr) : bool :=
  is_nonempty (take_while is_terminator m)
  && is_nonempty (drop_while is_terminator m)
  && forallb isspace (drop_while is_terminator m).

Definition ends_with_terminator (x : pystr) : bool :=
  match rev x with [] => false | c :: _ => is_terminator c end.

Definition starts_with_space (x : pystr) : bool :=
  match x with [] => false | c :: _ => isspace c end.

(** The shape of a split: text items without boundary alternate with
    separators; a match begins at the first terminator of its run (the text
    before it does not end with a terminator) and takes all the whitespace
    (the text after it does not begin with whitespace). *)
Fixpoint split_shape (l : list pystr) : bool :=
  match l with
  | [] => false
  | piece :: l' =>
      negb (has_boundary piece)
      && match l' with
         | [] => true
         | sep :: rest =>
             is_separator sep
             && negb (ends_with_terminator piece)
             && negb (starts_with_space (concat rest))
             && split_shape rest
         end
  end.

(** The items of a list joined two by two; a last item without partner is
    left out. *)
Fixpoint pair_up (l : list pystr) : list pystr :=
  match l with
  | [] => []
  | a :: l' =>
      match l' with
      | [] => []
      | b :: rest => (a ++ b) :: pair_up rest
      end
  end.

(** Every whitespace character is a space followed by a character that is
    not whitespace. *)
Fixpoint single_spaced (t : pystr) : bool :=
  match t with
  | [] => true
  | c :: r =>
      (if isspace c then Ascii.eqb c SP && starts_ok r else true)
      && single_spaced r
  end.

(** A normalized text: no leading whitespace, and [single_spaced]. *)
Definition normalized (t : pystr) : bool :=
  negb (starts_with_space t) && single_spaced t.

(** What the loop keeps of a joined pair. *)
Definition kept (sent : pystr) : list pystr :=
  if is_nonempty (strip sent) then [strip sent] else [].


(** A window fits the target, trailing space included, or holds one home
    sentence only. *)
Definition fits_or_single (c : Z) (w : list pystr * list pystr) : Prop :=
  (Z.of_nat (length (spaced (fst w ++ snd w))) < c)%Z \/ length (snd w) = 1.

Definition window_ok (c : Z) (w : list pystr * list pystr) : Prop :=
  snd w <> [] /\ fits_or_single c w.

(** How a window follows the buffer [prev] of the window before it: the
    first window has no overlap; a later one was opened because its first
    home sentence did not fit after [prev], and its overlap is the suffix of
    [prev] that the scan of the budget [floor(c/4)] selects. *)
Definition linked (c : Z) (prev : option (list pystr))
    (w : list pystr * list pystr) : Prop :=
  match prev with
  | None => fst w = []
  | Some buffer =>
      exists dropped s home',
        buffer = dropped ++ fst w
        /\ within_budget (c / 4) (fst w)
        /\ stopped_at (c / 4) dropped (fst w)
        /\ snd w = s :: home'
        /\ (c <= Z.of_nat (length (spaced buffer)) + Z.of_nat (length s) + 1)%Z
  end.

(** The windows of a document under the target [c], in order; the index is
    the buffer of the last one. *)
Inductive packed (c : Z) :
    option (list pystr) -> list (list pystr * list pystr) -> Prop :=
| packed_nil : packed c None []
| packed_snoc prev windows w :
    packed c prev windows -> linked c prev w -> window_ok c w ->
    packed c (Some (fst w ++ snd w)) (windows ++ [w]).

Definition packing_inv (c : Z) (processed : list pystr) (st : chunker) : Prop :=
  exists prev windows ov home,
    packed c prev windows
    /\ sentence_buffer st = ov ++ home
    /\ (home = [] -> sentence_buffer st = [] /\ prev = None)
    /\ (home <> [] -> linked c prev (ov, home) /\ window_ok c (ov, home))
    /\ text_inv st
    /\ forallb clean (sentence_buffer st) = true
    /\ chunks st = map window_text windows
    /\ concat (map snd windows) ++ home = processed.

(** What one file adds to the collection and to [total_chars]. *)
Definition file_chunks (chunk_size : Z) (f : pdf_file) : list pystr :=
  match f with
  | None => []
  | Some pages =>
      chunk_sentences chunk_size
        (split_sentences (clean_text (extract_full_text pages)))
  end.

Definition file_chars (f : pdf_file) : nat :=
  match f with
  | None => 0
  | Some pages => length (clean_text (extract_full_text pages))
  end.

(** [old in s]: [old] occurs somewhere in [s]. *)
Fixpoint occurs (old s : pystr) : bool :=
  starts_with old s
  || match s with
     | [] => false
     | _ :: s' => occurs old s'
     end.


(** A sentence as the loop produces it. *)
Definition sentence_ok (x : pystr) : bool :=
  ends_with_terminator x && negb (has_boundary x).

(** ** The code on small inputs *)

Example clean_text_ex :
  clean_text (lit "  Hello,
   world.	Bye  ") = lit "Hello, world. Bye".
Proof. reflexivity. Qed.

Example re_split_ex :
  re_split (lit "A. B. C.") = [lit "A"; lit ". "; lit "B"; lit ". "; lit "C."].
Proof. reflexivity. Qed.

Example re_split_ex2 :
  re_split (lit "Wait...  what?! no.x") =
  [lit "Wait"; lit "...  "; lit "what"; lit "?! "; lit "no.x"].
Proof. reflexivity. Qed.

Example re_split_ex3 :
  re_split (lit ". abc. ") = [lit ""; lit ". "; lit "abc"; lit ". "; lit ""].
Proof. reflexivity. Qed.

Example split_sentences_ex :
  split_sentences (lit "Wait...  what?! no.x") = [lit "Wait..."; lit "what?!"].
Proof. reflexivity. Qed.

Example chunk_ex :
  chunk_sentences 16 [lit "abc"; lit "0123456789ab"] =
  [lit "abc"; lit "0123456789ab"].
Proof. reflexivity. Qed.

Example overlap_ex :
  create_overlap (40 / 4) [lit "aaaaaaaaaaaa"; lit "bbb"; lit "cc"]
  = (lit "bbb cc ", [lit "bbb"; lit "cc"]).
Proof. reflexivity. Qed.

Example chunk_windows_ex :
  chunk_sentences 40
    [lit "aaaaaaaaaaaa"; lit "bbb"; lit "cc"; lit "dddddddddddddddddddd"; lit "e"]
  = [lit "aaaaaaaaaaaa bbb cc"; lit "bbb cc dddddddddddddddddddd e"].
Proof. reflexivity. Qed.

(** ** Lemmas on strings *)

Section StringLemmas.

Variable p : ascii -> bool.

Lemma drop_while_all (a s : pystr) :
  forallb p a = true -> drop_while p (a ++ s) = drop_while p s.
Proof.
  induction a as [|c a IH]; simpl; [reflexivity|].
  intros H. apply andb_prop in H as [-> H]. auto.
Qed.

Lemma drop_while_stop (c : ascii) (s : pystr) :
  p c = false -> drop_while p (c :: s) = c :: s.
Proof. simpl. now intros ->. Qed.

Lemma drop_while_snoc (l : pystr) (c : ascii) :
  p c = false -> drop_while p (l ++ [c]) = drop_while p l ++ [c].
Proof.
  intros Hc. induction l as [|d l IH]; simpl.
  - now rewrite Hc.
  - destruct (p d); [exact IH | reflexivity].
Qed.

Lemma drop_while_head (s : pystr) :
  match drop_while p s with [] => True | c :: _ => p c = false end.
Proof.
  induction s as [|c s IH]; simpl; [exact I|].
  destruct (p c) eqn:E; [exact IH | exact E].
Qed.

Lemma take_while_all (s : pystr) : forallb p (take_while p s) = true.
Proof.
  induction s as [|c s IH]; simpl; [reflexivity|].
  destruct (p c) eqn:E; simpl; [now rewrite E | reflexivity].
Qed.

End StringLemmas.

Lemma forallb_rev (q : ascii -> bool) (l : pystr) :
  forallb q l = true -> forallb q (rev l) = true.
Proof.
  rewrite !forallb_forall. intros H c Hc. apply H. now apply in_rev.
Qed.

Lemma starts_ok_app (x y : pystr) :
  starts_ok x = true -> starts_ok (x ++ y) = true.
Proof. destruct x; simpl; [discriminate | auto]. Qed.

Lemma ends_ok_app (x y : pystr) :
  ends_ok y = true -> ends_ok (x ++ y) = true.
Proof.
  unfold ends_ok. rewrite rev_app_distr. apply starts_ok_app.
Qed.

Lemma starts_ok_lstrip (x : pystr) : starts_ok x = true -> lstrip x = x.
Proof.
  destruct x as [|c x]; simpl; [discriminate|].
  intros H. apply negb_true_iff in H. unfold lstrip. simpl. now rewrite H.
Qed.

Lemma clean_nonempty (x : pystr) : clean x = true -> x <> [].
Proof. destruct x; [discriminate | discriminate]. Qed.

Lemma clean_length (x : pystr) : clean x = true -> 1 <= length x.
Proof. destruct x; simpl; [discriminate | lia]. Qed.

(** Whitespace around a text that is empty or clean is what [strip]
    removes. *)
Lemma strip_padded (a x b : pystr) :
  ws_run a = true -> ws_run b = true -> x = [] \/ clean x = true ->
  strip (a ++ x ++ b) = x.
Proof.
  intros Ha Hb Hx. unfold strip, rstrip, lstrip.
  rewrite (drop_while_all isspace a _ Ha).
  pose proof (forallb_rev isspace b Hb) as Hrb.
  destruct Hx as [-> | Hx].
  - simpl. rewrite <- (app_nil_r b), (drop_while_all isspace b [] Hb). reflexivity.
  - apply andb_prop in Hx as [Hs He].
    pose proof (starts_ok_lstrip _ (starts_ok_app x b Hs)) as E.
    unfold lstrip in E. rewrite E, rev_app_distr.
    rewrite (drop_while_all isspace _ _ Hrb).
    pose proof (starts_ok_lstrip _ He) as E'. unfold lstrip in E'.
    rewrite E'. apply rev_involutive.
Qed.

Lemma strip_clean (x : pystr) : clean x = true -> strip x = x.
Proof.
  intros H. rewrite <- (strip_padded [] x []) at 2; auto.
  now rewrite app_nil_r.
Qed.

(** A non-empty result of [strip] is clean. *)
Lemma strip_is_clean (s : pystr) :
  is_nonempty (strip s) = true -> clean (strip s) = true.
Proof.
  unfold strip, rstrip, lstrip, clean, ends_ok.
  set (d := drop_while isspace s). rewrite rev_involutive.
  intros Hne.
  assert (H2 : starts_ok (drop_while isspace (rev d)) = true).
  { pose proof (drop_while_head isspace (rev d)) as H.
    destruct (drop_while isspace (rev d)) as [|c r]; [discriminate|].
    simpl. now rewrite H. }
  rewrite H2, andb_true_r.
  pose proof (drop_while_head isspace s) as Hd. fold d in Hd.
  destruct d as [|c d']; [discriminate|].
  simpl rev in *. rewrite (drop_while_snoc isspace _ _ Hd), rev_app_distr.
  simpl. now rewrite Hd.
Qed.

Lemma token_clean (t : pystr) : token t = true -> clean t = true.
Proof.
  unfold token, clean, ends_ok. intros H. apply andb_prop in H as [Hn Ha].
  pose proof (forallb_rev _ t Ha) as Hr.
  assert (Hrn : rev t <> []).
  { intros E. apply (f_equal (@rev ascii)) in E. rewrite rev_involutive in E.
    subst t. discriminate. }
  destruct t as [|c t]; [discriminate|].
  destruct (rev (c :: t)) as [|c' r]; [congruence|].
  simpl in *. apply andb_prop in Ha as [-> _]. now apply andb_prop in Hr as [-> _].
Qed.

Lemma join_space_cons (x : pystr) (r : list pystr) :
  r <> [] -> join_space (x :: r) = x ++ [SP] ++ join_space r.
Proof. destruct r; [congruence | reflexivity]. Qed.

Lemma spaced_join (l : list pystr) :
  l <> [] -> spaced l = join_space l ++ [SP].
Proof.
  induction l as [|x r IH]; [congruence|]. intros _.
  destruct r as [|y r].
  - unfold spaced. simpl. now rewrite app_nil_r.
  - rewrite join_space_cons by discriminate.
    change (spaced (x :: y :: r)) with ((x ++ [SP]) ++ spaced (y :: r)).
    rewrite IH by discriminate. now rewrite <- !app_assoc.
Qed.

Lemma spaced_app (a b : list pystr) : spaced (a ++ b) = spaced a ++ spaced b.
Proof. unfold spaced. now rewrite map_app, concat_app. Qed.

Lemma join_space_clean (l : list pystr) :
  l <> [] -> forallb clean l = true -> clean (join_space l) = true.
Proof.
  induction l as [|x r IH]; [congruence|]. intros _ H.
  simpl in H. apply andb_prop in H as [Hx Hr].
  destruct r as [|y r]; [exact Hx|].
  rewrite join_space_cons by discriminate.
  specialize (IH ltac:(discriminate) Hr).
  apply andb_prop in Hx as [Hs _]. apply andb_prop in IH as [_ He].
  unfold clean. rewrite starts_ok_app by assumption.
  rewrite app_assoc, ends_ok_app by assumption. reflexivity.
Qed.

(** The text of a buffer of clean sentences, stripped, is their join. *)
Lemma strip_spaced (l : list pystr) :
  l <> [] -> forallb clean l = true -> strip (spaced l) = join_space l.
Proof.
  intros Hne Hc. rewrite spaced_join by assumption.
  apply (strip_padded [] (join_space l) [SP]); auto.
  right. now apply join_space_clean.
Qed.

(** ** The normalizer *)

Lemma re_sub_ws_cons (c : ascii) (s : pystr) :
  re_sub_ws (c :: s) =
  if isspace c then SP :: re_sub_ws (drop_while isspace s)
  else c :: re_sub_ws s.
Proof. simp re_sub_ws. destruct (isspace c); reflexivity. Qed.

Lemma re_sub_ws_token (t s : pystr) :
  forallb (fun c => negb (isspace c)) t = true ->
  re_sub_ws (t ++ s) = t ++ re_sub_ws s.
Proof.
  induction t as [|c t IH]; simpl; [reflexivity|].
  intros H. apply andb_prop in H as [Hc Ht]. apply negb_true_iff in Hc.
  rewrite re_sub_ws_cons, Hc, IH by assumption. reflexivity.
Qed.

Lemma re_sub_ws_gap (w s : pystr) :
  ws_run w = true -> is_nonempty w = true -> s = [] \/ starts_ok s = true ->
  re_sub_ws (w ++ s) = SP :: re_sub_ws s.
Proof.
  destruct w as [|c w]; [discriminate|]. simpl. intros H _ Hs.
  apply andb_prop in H as [Hc Hw].
  rewrite re_sub_ws_cons, Hc, (drop_while_all isspace w s Hw).
  destruct Hs as [-> | Hs]; [reflexivity|].
  now rewrite (starts_ok_lstrip s Hs : drop_while isspace s = s).
Qed.

Lemma assemble_starts_ok (parts : list (pystr * pystr)) :
  gaps_ok parts = true -> assemble parts = [] \/ starts_ok (assemble parts) = true.
Proof.
  destruct parts as [|[t w] r]; [now left|]. simpl. intros H. right.
  apply andb_prop in H as [H _]. apply andb_prop in H as [H _].
  apply andb_prop in H as [H _]. apply token_clean in H.
  apply andb_prop in H as [H _]. now apply starts_ok_app.
Qed.

Lemma re_sub_ws_assemble (parts : list (pystr * pystr)) :
  gaps_ok parts = true -> re_sub_ws (assemble parts) = collapsed parts.
Proof.
  induction parts as [|[t w] r IH]; [reflexivity|].
  cbn [gaps_ok assemble collapsed]. intros H.
  apply andb_prop in H as [H Hr]. apply andb_prop in H as [H Hg].
  apply andb_prop in H as [Ht Hw]. apply andb_prop in Ht as [_ Ht].
  rewrite re_sub_ws_token by assumption. f_equal.
  destruct (is_nonempty w) eqn:En.
  - rewrite re_sub_ws_gap; auto using assemble_starts_ok.
    now rewrite IH.
  - destruct w; [|discriminate]. simpl in Hg.
    destruct r; [reflexivity | discriminate].
Qed.

Lemma collapsed_join (parts : list (pystr * pystr)) :
  gaps_ok parts = true ->
  exists b, ws_run b = true /\
            collapsed parts = join_space (map fst parts) ++ b.
Proof.
  induction parts as [|[t w] r IH]; [now exists []|].
  cbn [gaps_ok collapsed map fst]. intros H.
  apply andb_prop in H as [H Hr]. apply andb_prop in H as [_ Hg].
  destruct r as [|q r].
  - exists (if is_nonempty w then [SP] else []). simpl.
    rewrite app_nil_r. split; [now destruct (is_nonempty w) | reflexivity].
  - rewrite orb_false_r in Hg. rewrite Hg.
    destruct (IH Hr) as (b & Hb & E). exists b. split; [exact Hb|].
    rewrite E, join_space_cons by discriminate.
    now rewrite <- !app_assoc.
Qed.

Lemma tokens_clean (parts : list (pystr * pystr)) :
  gaps_ok parts = true -> forallb clean (map fst parts) = true.
Proof.
  induction parts as [|[t w] r IH]; [reflexivity|].
  cbn [gaps_ok map fst forallb]. intros H.
  apply andb_prop in H as [H Hr]. apply andb_prop in H as [H _].
  apply andb_prop in H as [Ht _].
  now rewrite (token_clean t Ht), IH.
Qed.

Lemma clean_text_assemble (w0 : pystr) (parts : list (pystr * pystr)) :
  ws_run w0 = true -> gaps_ok parts = true ->
  clean_text (w0 ++ assemble parts) = join_space (map fst parts).
Proof.
  intros Hw Hp. unfold clean_text.
  destruct (collapsed_join parts Hp) as (b & Hb & E).
  assert (Hj : join_space (map fst parts) = []
               \/ clean (join_space (map fst parts)) = true).
  { destruct parts as [|q r]; [now left|]. right.
    apply join_space_clean; [discriminate | now apply tokens_clean]. }
  destruct (is_nonempty w0) eqn:En.
  - rewrite re_sub_ws_gap, re_sub_ws_assemble, E;
      auto using assemble_starts_ok.
    now apply (strip_padded [SP]).
  - destruct w0; [|discriminate]. simpl.
    rewrite re_sub_ws_assemble, E by assumption.
    now apply (strip_padded []).
Qed.

Lemma token_single (c : ascii) : isspace c = false -> token [c] = true.
Proof. unfold token. simpl. now intros ->. Qed.

Lemma token_cons (c : ascii) (t : pystr) :
  isspace c = false -> token t = true -> token (c :: t) = true.
Proof.
  unfold token. simpl. intros -> H. now apply andb_prop in H as [_ ->].
Qed.

(** Every text is a leading whitespace run followed by well-formed parts. *)
Lemma decompose (s : pystr) :
  exists w0 parts,
    ws_run w0 = true /\ gaps_ok parts = true /\ s = w0 ++ assemble parts.
Proof.
  induction s as [|c s (w0 & parts & Hw & Hp & ->)].
  - now exists [], [].
  - destruct (isspace c) eqn:Ec.
    + exists (c :: w0), parts. simpl. now rewrite Ec, Hw.
    + destruct w0 as [|d w0].
      * destruct parts as [|[t w] r].
        -- exists [], [([c], [])]. cbn [gaps_ok]. now rewrite token_single.
        -- exists [], ((c :: t, w) :: r). split; [reflexivity|].
           split; [|reflexivity].
           cbn [gaps_ok] in *.
           apply andb_prop in Hp as [H Hr]. apply andb_prop in H as [H Hg].
           apply andb_prop in H as [Ht Hw'].
           now rewrite (token_cons c t Ec Ht), Hw', Hg, Hr.
      * exists [], (([c], d :: w0) :: parts). split; [reflexivity|].
        split; [|reflexivity].
        cbn [gaps_ok]. now rewrite token_single, Hw, Hp.
Qed.

Lemma respace_spec (parts : list (pystr * pystr)) :
  gaps_ok parts = true ->
  gaps_ok (respace (map fst parts)) = true
  /\ assemble (respace (map fst parts)) = join_space (map fst parts)
  /\ map fst (respace (map fst parts)) = map fst parts.
Proof.
  induction parts as [|[t w] r IH]; [now auto|].
  cbn [gaps_ok map fst respace assemble]. intros H.
  apply andb_prop in H as [H Hr]. apply andb_prop in H as [H _].
  apply andb_prop in H as [Ht _].
  destruct (IH Hr) as (G & A & M). rewrite G, A, M, Ht.
  destruct r as [|q r]; simpl; [now rewrite app_nil_r | auto].
Qed.

Lemma clean_text_idempotent (s : pystr) :
  clean_text (clean_text s) = clean_text s.
Proof.
  destruct (decompose s) as (w0 & parts & Hw & Hp & ->).
  rewrite (clean_text_assemble w0 parts Hw Hp).
  destruct (respace_spec parts Hp) as (G & A & M).
  pose proof (clean_text_assemble [] _ eq_refl G) as E.
  simpl in E. now rewrite A, M in E.
Qed.

(** C8. The normalizer of line 64 replaces every maximal run of whitespace
    by one space and removes leading and trailing whitespace: a text made of
    a whitespace run [w0] and of tokens [t1 .. tn], each followed by its
    whitespace gap, is sent to [t1 ++ " " ++ ... ++ " " ++ tn], and every
    text has that form.  The empty text is sent to the empty text, and
    normalizing twice is normalizing once. *)
Theorem C8_normalizer :
  clean_text [] = []
  /\ (forall w0 parts,
         ws_run w0 = true -> gaps_ok parts = true ->
         clean_text (w0 ++ assemble parts) = join_space (map fst parts))
  /\ (forall s, exists w0 parts,
         ws_run w0 = true /\ gaps_ok parts = true /\ s = w0 ++ assemble parts)
  /\ (forall s, clean_text (clean_text s) = clean_text s).
Proof.
  split; [reflexivity|].
  split; [exact clean_text_assemble|].
  split; [exact decompose | exact clean_text_idempotent].
Qed.

Lemma C8_normalizer_witness :
  ws_run (lit "  ") = true
  /\ gaps_ok [(lit "a", lit " 	 "); (lit "b.", lit " ")] = true
  /\ clean_text (lit "  " ++ assemble [(lit "a", lit " 	 "); (lit "b.", lit " ")])
     = lit "a b.".
Proof.
  split; [reflexivity|]. split; [reflexivity|].
  exact (proj1 (proj2 C8_normalizer) (lit "  ")
           [(lit "a", lit " 	 "); (lit "b.", lit " ")] eq_refl eq_refl).
Defined.

(** ** The overlap scan *)

Lemma overlap_loop_spec (overlap_size : Z) (rb : list pystr) :
  forall oc os, oc = spaced os ->
  exists taken older,
    rb = taken ++ older
    /\ overlap_loop overlap_size rb oc os
       = (spaced (rev taken ++ os), rev taken ++ os)
    /\ (forall a s b, taken = a ++ s :: b ->
          (Z.of_nat (length s) + 1 + Z.of_nat (length (spaced (rev a ++ os)))
           < overlap_size)%Z)
    /\ match older with
       | [] => True
       | s :: _ =>
           (overlap_size <= Z.of_nat (length s) + 1
                            + Z.of_nat (length (spaced (rev taken ++ os))))%Z
       end.
Proof.
  induction rb as [|s rb IH]; intros oc os ->.
  - exists [], []. simpl. repeat split; auto.
    intros [|? ?] ? ? E; discriminate.
  - cbn [overlap_loop].
    assert (L : Z.of_nat (length (s ++ [SP] ++ spaced os))
                = (Z.of_nat (length s) + 1 + Z.of_nat (length (spaced os)))%Z).
    { rewrite !length_app. simpl. lia. }
    destruct (Z.ltb_spec (Z.of_nat (length (s ++ [SP] ++ spaced os))) overlap_size)
      as [Hlt | Hge].
    + destruct (IH (s ++ [SP] ++ spaced os) (s :: os)) as (taken & older & E & R & B & S).
      { unfold spaced. simpl. now rewrite <- app_assoc. }
      exists (s :: taken), older. simpl rev. rewrite <- !app_assoc. simpl.
      split; [now rewrite E|]. split; [exact R|]. split; [|exact S].
      intros [|x a] y b Eq; simpl in Eq; injection Eq as -> Eq.
      * simpl. lia.
      * simpl rev. rewrite <- app_assoc. simpl. now apply (B a y b).
    + exists [], (s :: rb). simpl. repeat split; auto.
      * intros [|? ?] ? ? E; discriminate.
      * lia.
Qed.

Lemma create_overlap_spec (overlap_size : Z) (buffer : list pystr) :
  exists dropped ov,
    buffer = dropped ++ ov
    /\ create_overlap overlap_size buffer = (spaced ov, ov)
    /\ within_budget overlap_size ov
    /\ stopped_at overlap_size dropped ov.
Proof.
  unfold create_overlap.
  destruct (overlap_loop_spec overlap_size (rev buffer) [] [] eq_refl)
    as (taken & older & E & R & B & S).
  rewrite app_nil_r in *.
  exists (rev older), (rev taken). split.
  { rewrite <- rev_app_distr, <- E. symmetry. apply rev_involutive. }
  split; [exact R|]. split.
  - intros a s b Eq.
    specialize (B (rev b) s (rev a)).
    rewrite app_nil_r, rev_involutive in B. apply B.
    rewrite <- (rev_involutive taken), Eq, rev_app_distr. simpl.
    now rewrite <- app_assoc.
  - intros k s Eq.
    assert (Eo : older = s :: rev k).
    { rewrite <- (rev_involutive older), Eq, rev_app_distr. reflexivity. }
    now rewrite Eo in S.
Qed.

(** The text of an overlap is empty or shorter than the budget. *)
Lemma within_budget_length (overlap_size : Z) (ov : list pystr) :
  within_budget overlap_size ov ->
  ov = [] \/ (Z.of_nat (length (spaced ov)) < overlap_size)%Z.
Proof.
  intros H. destruct ov as [|s b]; [now left|]. right.
  specialize (H [] s b eq_refl).
  change (spaced (s :: b)) with ((s ++ [SP]) ++ spaced b).
  rewrite !length_app. simpl. lia.
Qed.

(** ** One iteration of the accumulation loop *)

(** The three branches of the loop body. *)
Lemma chunk_step_cases (chunk_size : Z) (st : chunker) (sent : pystr) :
  ((Z.of_nat (length (current_chunk st)) + Z.of_nat (length sent) + 1
    < chunk_size)%Z
   /\ chunk_step chunk_size st sent
      = mkChunker (chunks st) (current_chunk st ++ sent ++ [SP])
                  (sentence_buffer st ++ [sent]))
  \/ ((chunk_size <= Z.of_nat (length (current_chunk st))
                     + Z.of_nat (length sent) + 1)%Z
      /\ current_chunk st <> []
      /\ exists dropped ov,
           sentence_buffer st = dropped ++ ov
           /\ within_budget (chunk_size / 4) ov
           /\ stopped_at (chunk_size / 4) dropped ov
           /\ chunk_step chunk_size st sent
              = mkChunker (chunks st ++ [strip (current_chunk st)])
                          (spaced ov ++ sent ++ [SP]) (ov ++ [sent]))
  \/ ((chunk_size <= Z.of_nat (length (current_chunk st))
                     + Z.of_nat (length sent) + 1)%Z
      /\ current_chunk st = []
      /\ chunk_step chunk_size st sent
         = mkChunker (chunks st) (sent ++ [SP]) [sent]).
Proof.
  unfold chunk_step.
  destruct (Z.ltb_spec
              (Z.of_nat (length (current_chunk st)) + Z.of_nat (length sent) + 1)
              chunk_size) as [Hlt | Hge].
  - left. auto.
  - right. destruct (current_chunk st) as [|c cur] eqn:Ec.
    + right. auto.
    + left. split; [exact Hge|]. split; [discriminate|].
      destruct (create_overlap_spec (chunk_size / 4) (sentence_buffer st))
        as (dropped & ov & E & R & B & S).
      exists dropped, ov. rewrite R. simpl. auto.
Qed.

(** C3, as stated, fails.  With [chunk_size = 16] the budget is 4.  After
    the sentence "abc" the next sentence overflows, so the chunk "abc" is
    emitted; the most recent sentence has [len("abc") + len("") = 3 < 4],
    yet the code leaves it out of the next buffer, because it compares
    [len("abc" + " " + "") = 4] with the budget.  The scan worded as in the
    claim would have included it. *)
Lemma C3_counterexample :
  let st := chunk_loop 16 chunker_init [lit "abc"] in
  let sent := lit "0123456789ab" in
  st = mkChunker [] (lit "abc ") [lit "abc"]
  /\ chunks (chunk_step 16 st sent) = [lit "abc"]
  /\ (Z.of_nat (length (lit "abc")) + Z.of_nat (length (lit "")) < 16 / 4)%Z
  /\ sentence_buffer (chunk_step 16 st sent) = [sent]
  /\ snd (create_overlap (16 / 4) (sentence_buffer st)) = []
  /\ snd (spec_create_overlap (16 / 4) (sentence_buffer st)) = [lit "abc"].
Proof. vm_compute. repeat split; reflexivity. Qed.

(** C3, amended.  When a sentence overflows a chunk whose text is not
    empty, that text is emitted and the buffer is scanned from the most
    recent sentence to the least recent one: a sentence [s] is included
    exactly while [len(s) + 1 + len(overlapText) < floor(C/4)], the 1
    being the separating space and [overlapText] the included sentences
    each followed by a space; the scan stops for good at the first sentence
    that fails the test.  The included sentences, a suffix of the buffer in
    its order, followed by the new sentence, are the next buffer. *)
Theorem C3_overlap_scan (chunk_size : Z) (st : chunker) (sent : pystr) :
  (chunk_size <= Z.of_nat (length (current_chunk st))
                 + Z.of_nat (length sent) + 1)%Z ->
  current_chunk st <> [] ->
  exists dropped ov,
    sentence_buffer st = dropped ++ ov
    /\ within_budget (chunk_size / 4) ov
    /\ stopped_at (chunk_size / 4) dropped ov
    /\ chunks (chunk_step chunk_size st sent)
       = chunks st ++ [strip (current_chunk st)]
    /\ sentence_buffer (chunk_step chunk_size st sent) = ov ++ [sent]
    /\ current_chunk (chunk_step chunk_size st sent)
       = spaced ov ++ sent ++ [SP].
Proof.
  intros Hfull Hne.
  destruct (chunk_step_cases chunk_size st sent)
    as [[Hlt _] | [(_ & _ & dropped & ov & E & B & S & R) | (_ & He & _)]].
  - lia.
  - exists dropped, ov. rewrite R. simpl. auto 6.
  - contradiction.
Qed.

Lemma C3_overlap_scan_witness :
  let st := mkChunker [] (lit "aaaaaaaaaaaa bbb cc ")
                      [lit "aaaaaaaaaaaa"; lit "bbb"; lit "cc"] in
  let sent := lit "dddddddddddddddddddd" in
  (40 <= Z.of_nat (length (current_chunk st)) + Z.of_nat (length sent) + 1)%Z
  /\ current_chunk st <> []
  /\ exists dropped ov,
       sentence_buffer st = dropped ++ ov
       /\ within_budget (40 / 4) ov
       /\ stopped_at (40 / 4) dropped ov
       /\ chunks (chunk_step 40 st sent) = chunks st ++ [strip (current_chunk st)]
       /\ sentence_buffer (chunk_step 40 st sent) = ov ++ [sent]
       /\ current_chunk (chunk_step 40 st sent) = spaced ov ++ sent ++ [SP].
Proof.
  intros st sent.
  split; [vm_compute; discriminate|].
  split; [discriminate|].
  apply (C3_overlap_scan 40 st sent); [vm_compute; discriminate | discriminate].
Defined.

(** ** Invariants of the accumulation loop *)

Lemma spaced_nil_inv (l : list pystr) : spaced l = [] -> l = [].
Proof.
  destruct l as [|x r]; [reflexivity|].
  change (spaced (x :: r)) with ((x ++ [SP]) ++ spaced r).
  intros E. apply app_eq_nil in E as [E _].
  apply app_eq_nil in E as [_ E]. discriminate.
Qed.

Lemma spaced_snoc (l : list pystr) (s : pystr) :
  spaced (l ++ [s]) = spaced l ++ s ++ [SP].
Proof.
  rewrite spaced_app. unfold spaced at 2. simpl. now rewrite app_nil_r.
Qed.

Lemma forallb_clean_snoc (l : list pystr) (s : pystr) :
  forallb clean l = true -> clean s = true -> forallb clean (l ++ [s]) = true.
Proof. intros Hl Hs. rewrite forallb_app, Hl. simpl. now rewrite Hs. Qed.

Lemma chunk_step_text_inv (chunk_size : Z) (st : chunker) (sent : pystr) :
  text_inv st -> text_inv (chunk_step chunk_size st sent).
Proof.
  unfold text_inv. intros H.
  destruct (chunk_step_cases chunk_size st sent)
    as [[_ R] | [(_ & _ & dropped & ov & _ & _ & _ & R) | (_ & _ & R)]];
    rewrite R; simpl.
  - now rewrite H, spaced_snoc.
  - now rewrite spaced_snoc.
  - symmetry. apply (spaced_snoc [] sent).
Qed.

Lemma chunk_loop_text_inv (chunk_size : Z) (sentences : list pystr) :
  forall st, text_inv st -> text_inv (chunk_loop chunk_size st sentences).
Proof.
  induction sentences as [|s r IH]; intros st H; [exact H|].
  apply IH. now apply chunk_step_text_inv.
Qed.

Lemma chunk_step_clean (chunk_size : Z) (st : chunker) (sent : pystr) :
  forallb clean (sentence_buffer st) = true -> clean sent = true ->
  forallb clean (sentence_buffer (chunk_step chunk_size st sent)) = true.
Proof.
  intros H Hs.
  destruct (chunk_step_cases chunk_size st sent)
    as [[_ R] | [(_ & _ & dropped & ov & E & _ & _ & R) | (_ & _ & R)]];
    rewrite R; simpl.
  - now apply forallb_clean_snoc.
  - rewrite E, forallb_app in H. apply andb_prop in H as [_ H].
    now apply forallb_clean_snoc.
  - now rewrite Hs.
Qed.

Lemma chunk_loop_clean (chunk_size : Z) (sentences : list pystr) :
  forall st,
    forallb clean (sentence_buffer st) = true ->
    forallb clean sentences = true ->
    forallb clean (sentence_buffer (chunk_loop chunk_size st sentences)) = true.
Proof.
  induction sentences as [|s r IH]; intros st H Hs; [exact H|].
  simpl in Hs. apply andb_prop in Hs as [Hs Hr].
  apply IH; [now apply chunk_step_clean | exact Hr].
Qed.

(** What is emitted from a state whose buffer holds clean sentences. *)
Lemma emitted_is_join (st : chunker) :
  text_inv st -> forallb clean (sentence_buffer st) = true ->
  current_chunk st <> [] ->
  strip (current_chunk st) = join_space (sentence_buffer st).
Proof.
  unfold text_inv. intros H Hc Hne. rewrite H.
  apply strip_spaced; [|exact Hc].
  intros E. rewrite E in H. now apply Hne.
Qed.

(** The segmenter yields clean sentences only. *)
Lemma clean_sentences_of_clean (sentences : list pystr) :
  forallb clean (clean_sentences_of sentences) = true.
Proof.
  unfold clean_sentences_of. apply forallb_forall. intros x Hx.
  apply in_flat_map in Hx as (i & _ & Hx).
  cbv zeta in Hx.
  destruct (is_nonempty (strip _)) eqn:En in Hx; [|contradiction].
  destruct Hx as [<- | []]. now apply strip_is_clean.
Qed.

Lemma split_sentences_clean (full_text : pystr) :
  forallb clean (split_sentences full_text) = true.
Proof. apply clean_sentences_of_clean. Qed.

Lemma forallb_firstn {A : Type} (q : A -> bool) (k : nat) (l : list A) :
  forallb q l = true -> forallb q (firstn k l) = true.
Proof.
  rewrite !forallb_forall. intros H x Hx. apply H.
  rewrite <- (firstn_skipn k l). apply in_or_app. now left.
Qed.

Lemma chunk_finish_cases (st : chunker) :
  (current_chunk st = [] /\ chunk_finish st = chunks st)
  \/ (current_chunk st <> []
      /\ chunk_finish st = chunks st ++ [strip (current_chunk st)]).
Proof.
  unfold chunk_finish. destruct (current_chunk st); [left | right]; simpl; auto.
  split; [discriminate | reflexivity].
Qed.

(** C9. At every step of the accumulation loop [current_chunk] is the
    concatenation of the sentences of [sentence_buffer], each followed by
    one space; this holds for every list of sentences.  For the sentences of
    a document, every chunk that an iteration or the final test emits is the
    single-space join of the buffer as it stands at that moment.  The state
    before iteration [k] is the loop run on the first [k] sentences; for [k]
    past the end it is the final state. *)
Theorem C9_buffer_invariant (chunk_size : Z) :
  (forall (sentences : list pystr) (k : nat),
      let st := chunk_loop chunk_size chunker_init (firstn k sentences) in
      current_chunk st = spaced (sentence_buffer st))
  /\ (forall (full_text : pystr) (k : nat),
        let sentences := split_sentences full_text in
        let st := chunk_loop chunk_size chunker_init (firstn k sentences) in
        match skipn k sentences with
        | sent :: _ =>
            chunks (chunk_step chunk_size st sent) = chunks st
            \/ chunks (chunk_step chunk_size st sent)
               = chunks st ++ [join_space (sentence_buffer st)]
        | [] =>
            chunk_sentences chunk_size sentences = chunks st
            \/ chunk_sentences chunk_size sentences
               = chunks st ++ [join_space (sentence_buffer st)]
        end).
Proof.
  split.
  - intros sentences k. apply chunk_loop_text_inv. reflexivity.
  - intros full_text k sentences st.
    assert (Ht : text_inv st) by (apply chunk_loop_text_inv; reflexivity).
    assert (Hc : forallb clean (sentence_buffer st) = true).
    { apply chunk_loop_clean; [reflexivity|].
      apply forallb_firstn, split_sentences_clean. }
    destruct (skipn k sentences) as [|sent rest] eqn:Ek.
    + assert (E : firstn k sentences = sentences).
      { rewrite <- (firstn_skipn k sentences) at 2.
        now rewrite Ek, app_nil_r. }
      unfold chunk_sentences. fold st in E. subst st. rewrite E in *.
      destruct (chunk_finish_cases (chunk_loop chunk_size chunker_init sentences))
        as [[_ R] | [Hne R]]; rewrite R; [now left | right].
      now rewrite emitted_is_join.
    + destruct (chunk_step_cases chunk_size st sent)
        as [[_ R] | [(_ & Hne & dropped & ov & _ & _ & _ & R) | (_ & _ & R)]];
        rewrite R; simpl; [now left | right | now left].
      now rewrite emitted_is_join.
Qed.

(** ** Coverage and order of the chunks *)

Lemma window_inv_init : window_inv [] chunker_init.
Proof.
  exists [], [], [], []. repeat split; auto using layout_nil.
  now exists [].
Qed.

Lemma concat_map_snoc {A B : Type} (f : A -> list B) (l : list A) (x : A) :
  concat (map f (l ++ [x])) = concat (map f l) ++ f x.
Proof. rewrite map_app, concat_app. simpl. now rewrite app_nil_r. Qed.

Lemma window_inv_step (chunk_size : Z) (processed : list pystr)
    (st : chunker) (sent : pystr) :
  window_inv processed st -> clean sent = true ->
  window_inv (processed ++ [sent]) (chunk_step chunk_size st sent).
Proof.
  intros (lb & ws & ov & home & L & Sfx & Eb & Hh & Ht & Hc & Ech & Ep) Hs.
  pose proof (chunk_step_text_inv chunk_size st sent Ht) as Ht'.
  pose proof (chunk_step_clean chunk_size st sent Hc Hs) as Hc'.
  destruct (chunk_step_cases chunk_size st sent)
    as [[_ R] | [(_ & Hne & dropped & ov' & E & _ & _ & R) | (_ & He & R)]].
  - exists lb, ws, ov, (home ++ [sent]).
    rewrite R in *. simpl in *. repeat split; auto.
    + now rewrite Eb, app_assoc.
    + intros E. now destruct home.
    + now rewrite <- Ep, app_assoc.
  - assert (Hhome : home <> []).
    { intros E'. apply Hne. red in Ht. rewrite Ht, (Hh E'). reflexivity. }
    exists (ov ++ home), (ws ++ [(ov, home)]), ov', [sent].
    rewrite R in *. simpl in *. repeat split; auto.
    + now apply (layout_snoc lb).
    + exists dropped. now rewrite <- Eb.
    + discriminate.
    + rewrite map_app, Ech. simpl. unfold window_text at 2. simpl.
      now rewrite emitted_is_join, Eb.
    + rewrite concat_map_snoc. simpl. now rewrite <- Ep.
  - assert (Eb0 : sentence_buffer st = []).
    { apply spaced_nil_inv. red in Ht. now rewrite <- Ht. }
    rewrite Eb0 in Eb. symmetry in Eb. apply app_eq_nil in Eb as [-> ->].
    exists lb, ws, [], [sent].
    rewrite R in *. simpl in *. repeat split; auto.
    rewrite app_nil_r in Ep. now rewrite Ep.
Qed.

Lemma window_inv_loop (chunk_size : Z) (sentences : list pystr) :
  forall processed st,
    window_inv processed st -> forallb clean sentences = true ->
    window_inv (processed ++ sentences) (chunk_loop chunk_size st sentences).
Proof.
  induction sentences as [|s r IH]; intros processed st H Hc.
  - now rewrite app_nil_r.
  - simpl in Hc. apply andb_prop in Hc as [Hs Hr].
    change (processed ++ s :: r) with (processed ++ [s] ++ r).
    rewrite app_assoc. apply IH; [now apply window_inv_step | exact Hr].
Qed.

Lemma window_inv_finish (processed : list pystr) (st : chunker) :
  window_inv processed st ->
  exists last_buffer windows,
    layout last_buffer windows
    /\ concat (map snd windows) = processed
    /\ chunk_finish st = map window_text windows.
Proof.
  intros (lb & ws & ov & home & L & Sfx & Eb & Hh & Ht & Hc & Ech & Ep).
  destruct (chunk_finish_cases st) as [[He R] | [Hne R]]; rewrite R.
  - assert (Eb0 : sentence_buffer st = []).
    { apply spaced_nil_inv. red in Ht. now rewrite <- Ht. }
    rewrite Eb0 in Eb. symmetry in Eb. apply app_eq_nil in Eb as [-> ->].
    exists lb, ws. rewrite app_nil_r in Ep. auto.
  - assert (Hhome : home <> []).
    { intros E'. apply Hne. red in Ht. rewrite Ht, (Hh E'). reflexivity. }
    exists (ov ++ home), (ws ++ [(ov, home)]). split; [now apply (layout_snoc lb)|].
    split; [now rewrite concat_map_snoc|].
    rewrite map_app, Ech. simpl. unfold window_text at 2. simpl.
    now rewrite emitted_is_join, Eb.
Qed.

Lemma occurs_in_join (s : pystr) (l : list pystr) :
  In s l -> occurs_in s (join_space l).
Proof.
  induction l as [|x r IH]; [contradiction|]. intros [<- | Hin].
  - destruct r as [|y r].
    + exists [], []. simpl. now rewrite app_nil_r.
    + exists [], ([SP] ++ join_space (y :: r)).
      now rewrite join_space_cons by discriminate.
  - destruct (IH Hin) as (pre & post & E).
    destruct r as [|y r]; [contradiction|].
    exists (x ++ [SP] ++ pre), post.
    rewrite join_space_cons by discriminate. rewrite E.
    now rewrite <- !app_assoc.
Qed.

(** C4. For the sentences of a document: the emitted chunks are the texts
    of a sequence of windows whose home sentences, taken window after
    window, are exactly the sentences of the document in their order; every
    chunk is the single-space join of whole sentences (the overlap, a suffix
    of the previous window's buffer, then the home sentences), so no
    sentence is cut; every sentence occurs verbatim in an emitted chunk; and
    no sentence gives no chunk. *)
Theorem C4_chunks_cover_sentences (chunk_size : Z) (full_text : pystr) :
  let sentences := split_sentences full_text in
  let emitted := chunk_sentences chunk_size sentences in
  chunk_sentences chunk_size [] = []
  /\ (exists last_buffer windows,
         layout last_buffer windows
         /\ concat (map snd windows) = sentences
         /\ emitted = map window_text windows)
  /\ (forall s, In s sentences ->
         exists c, In c emitted /\ occurs_in s c).
Proof.
  intros sentences emitted. split; [reflexivity|].
  assert (W : exists last_buffer windows,
             layout last_buffer windows
             /\ concat (map snd windows) = sentences
             /\ emitted = map window_text windows).
  { apply (window_inv_finish sentences).
    apply (window_inv_loop chunk_size sentences [] chunker_init);
      [exact window_inv_init | apply split_sentences_clean]. }
  split; [exact W|].
  destruct W as (lb & ws & _ & Es & Ee). intros s Hs.
  rewrite <- Es in Hs. apply in_concat in Hs as (home & Hh & Hs).
  apply in_map_iff in Hh as ([ov home'] & <- & Hw).
  exists (window_text (ov, home')). split.
  - rewrite Ee. now apply in_map.
  - apply occurs_in_join. apply in_or_app. now right.
Qed.

Lemma C4_chunks_cover_sentences_witness :
  In (lit "B?") (split_sentences (lit "A. B? C! D"))
  /\ exists c,
       In c (chunk_sentences 6 (split_sentences (lit "A. B? C! D")))
       /\ occurs_in (lit "B?") c.
Proof.
  assert (H : In (lit "B?") (split_sentences (lit "A. B? C! D"))).
  { vm_compute. right. left. reflexivity. }
  split; [exact H|].
  exact (proj2 (proj2 (C4_chunks_cover_sentences 6 (lit "A. B? C! D")))
           (lit "B?") H).
Defined.

(** ** Size of the chunks *)

Lemma join_space_length (l : list pystr) :
  l <> [] -> S (length (join_space l)) = length (spaced l).
Proof.
  intros H. rewrite spaced_join by assumption.
  rewrite length_app. simpl. lia.
Qed.

(** The chunk emitted from a state within the bound is within the bound. *)
Lemma emitted_within_bound (c : Z) (l : nat) (st : chunker) :
  text_inv st -> forallb clean (sentence_buffer st) = true ->
  current_chunk st <> [] ->
  (Z.of_nat (length (current_chunk st)) <= size_bound c l)%Z ->
  (Z.of_nat (length (strip (current_chunk st))) < size_bound c l)%Z
  /\ strip (current_chunk st) <> [].
Proof.
  intros Ht Hc Hne Hlen.
  assert (Hb : sentence_buffer st <> []).
  { intros E. apply Hne. red in Ht. now rewrite Ht, E. }
  rewrite emitted_is_join by assumption. split.
  - pose proof (join_space_length _ Hb) as E. red in Ht. rewrite <- Ht in E. lia.
  - apply clean_nonempty. now apply join_space_clean.
Qed.

Lemma size_inv_step (c : Z) (l : nat) (st : chunker) (sent : pystr) :
  (0 < c)%Z -> length sent <= l ->
  text_inv st -> forallb clean (sentence_buffer st) = true ->
  size_inv c l st -> size_inv c l (chunk_step c st sent).
Proof.
  intros Hpos Hl Ht Hc [Hch Hcur].
  assert (Hq : (0 <= c / 4)%Z) by (apply Z.div_pos; lia).
  unfold size_inv, size_bound in *.
  destruct (chunk_step_cases c st sent)
    as [[Hlt R] | [(_ & Hne & dropped & ov & _ & B & _ & R) | (_ & _ & R)]];
    rewrite R; split; cbn [chunks current_chunk].
  - exact Hch.
  - rewrite !length_app. cbn [length]. lia.
  - intros x Hx. apply in_app_or in Hx as [Hx | [<- | []]]; [now apply Hch|].
    now apply emitted_within_bound.
  - rewrite !length_app. cbn [length].
    destruct (within_budget_length _ _ B) as [-> | Hov]; cbn [spaced map concat length]; lia.
  - exact Hch.
  - rewrite length_app. cbn [length]. lia.
Qed.

Lemma size_inv_loop (c : Z) (l : nat) (sentences : list pystr) :
  (0 < c)%Z -> Forall (fun s => length s <= l) sentences ->
  forallb clean sentences = true ->
  forall st,
    text_inv st -> forallb clean (sentence_buffer st) = true ->
    size_inv c l st ->
    let st' := chunk_loop c st sentences in
    text_inv st' /\ forallb clean (sentence_buffer st') = true
    /\ size_inv c l st'.
Proof.
  intros Hpos Hl Hc.
  induction sentences as [|s r IH]; intros st Ht Hb Hs; [now auto|].
  inversion Hl as [|? ? Hls Hlr]; subst.
  simpl in Hc. apply andb_prop in Hc as [Hcs Hcr].
  apply (IH Hlr Hcr).
  - now apply chunk_step_text_inv.
  - now apply chunk_step_clean.
  - now apply size_inv_step.
Qed.

Lemma max_sentence_length_bound (sentences : list pystr) :
  Forall (fun s => length s <= max_sentence_length sentences) sentences.
Proof.
  unfold max_sentence_length.
  pose proof (proj1 (list_max_le (map (@length ascii) sentences) _)
                (le_n _)) as H.
  rewrite Forall_map in H. exact H.
Qed.

(** C5. For every document and every target size [C > 0], every emitted
    chunk is strictly shorter than [C + L + floor(C/4)], where [L] is the
    greatest length of a sentence of the document, and no emitted chunk is
    the empty string. *)
Theorem C5_chunk_size_bound (chunk_size : Z) (full_text : pystr) (c : pystr) :
  (0 < chunk_size)%Z ->
  In c (chunk_sentences chunk_size (split_sentences full_text)) ->
  (Z.of_nat (length c)
   < chunk_size + Z.of_nat (max_sentence_length (split_sentences full_text))
     + chunk_size / 4)%Z
  /\ c <> [].
Proof.
  intros Hpos Hin.
  set (sentences := split_sentences full_text) in *.
  set (l := max_sentence_length sentences).
  assert (Hq : (0 <= chunk_size / 4)%Z) by (apply Z.div_pos; lia).
  destruct (size_inv_loop chunk_size l sentences Hpos
              (max_sentence_length_bound sentences)
              (split_sentences_clean full_text) chunker_init)
    as (Ht & Hc & Hch & Hcur).
  - reflexivity.
  - reflexivity.
  - split; [intros x []|]. unfold size_bound. simpl. lia.
  - unfold chunk_sentences in Hin.
    destruct (chunk_finish_cases (chunk_loop chunk_size chunker_init sentences))
      as [[_ R] | [Hne R]]; rewrite R in Hin.
    + now apply Hch.
    + apply in_app_or in Hin as [Hx | [<- | []]]; [now apply Hch|].
      now apply emitted_within_bound.
Qed.

Lemma C5_chunk_size_bound_witness :
  (0 < 7)%Z
  /\ In (lit "A. B?") (chunk_sentences 7 (split_sentences (lit "A. B? C! D")))
  /\ (Z.of_nat (length (lit "A. B?"))
      < 7 + Z.of_nat (max_sentence_length (split_sentences (lit "A. B? C! D")))
        + 7 / 4)%Z
  /\ lit "A. B?" <> [].
Proof.
  assert (H : In (lit "A. B?")
                 (chunk_sentences 7 (split_sentences (lit "A. B? C! D")))).
  { vm_compute. left. reflexivity. }
  split; [reflexivity|]. split; [exact H|].
  exact (C5_chunk_size_bound 7 (lit "A. B? C! D") (lit "A. B?") eq_refl H).
Defined.

(** ** Degenerate targets *)

(** With a budget [floor(C/4) <= 0] no sentence is ever taken into an
    overlap. *)
Lemma create_overlap_no_budget (overlap_size : Z) (buffer : list pystr) :
  (overlap_size <= 0)%Z -> create_overlap overlap_size buffer = ([], []).
Proof.
  intros H.
  destruct (create_overlap_spec overlap_size buffer) as (d & ov & _ & R & B & _).
  destruct (within_budget_length _ _ B) as [-> | Hlt]; [exact R | lia].
Qed.

(** At most one sentence is pending, and the chunks emitted so far followed
    by the pending sentence and by the sentences to come are the result. *)
Lemma chunk_loop_small_target (chunk_size : Z) (sentences : list pystr) :
  (chunk_size / 4 <= 0)%Z -> forallb clean sentences = true ->
  forall st,
    text_inv st -> forallb clean (sentence_buffer st) = true ->
    length (sentence_buffer st) <= 1 ->
    chunk_finish (chunk_loop chunk_size st sentences)
    = chunks st ++ sentence_buffer st ++ sentences.
Proof.
  intros Hq.
  assert (Hc4 : (chunk_size < 4)%Z).
  { destruct (Z.lt_ge_cases chunk_size 4) as [H | H]; [exact H|].
    pose proof (Z.div_le_mono 4 chunk_size 4 ltac:(lia) H) as H'.
    change (4 / 4)%Z with 1%Z in H'. lia. }
  induction sentences as [|s r IH]; intros Hc st Ht Hb Hlen.
  - simpl. rewrite app_nil_r.
    destruct (chunk_finish_cases st) as [[He R] | [Hne R]]; rewrite R.
    + red in Ht. rewrite He in Ht. symmetry in Ht.
      apply spaced_nil_inv in Ht. now rewrite Ht, app_nil_r.
    + rewrite emitted_is_join by assumption.
      destruct (sentence_buffer st) as [|x [|y b]] eqn:Eb; simpl in *;
        [|reflexivity | lia].
      red in Ht. rewrite Eb in Ht. now destruct Hne.
  - simpl in Hc. apply andb_prop in Hc as [Hs Hr].
    pose proof (clean_length s Hs) as Hls.
    pose proof (chunk_step_text_inv chunk_size st s Ht) as Ht'.
    pose proof (chunk_step_clean chunk_size st s Hb Hs) as Hb'.
    cbn [chunk_loop fold_left]. fold (chunk_loop chunk_size (chunk_step chunk_size st s) r).
    destruct (chunk_step_cases chunk_size st s)
      as [[Hlt R] | [(_ & Hne & dropped & ov & E & B & _ & R) | (_ & He & R)]].
    + assert (Eb : sentence_buffer st = []).
      { destruct (sentence_buffer st) as [|x b] eqn:Eb; [reflexivity|].
        exfalso. red in Ht. rewrite Eb in Ht.
        assert (Hx : clean x = true).
        { simpl in Hb. now apply andb_prop in Hb as [Hb _]. }
        apply clean_length in Hx.
        change (spaced (x :: b)) with ((x ++ [SP]) ++ spaced b) in Ht.
        rewrite Ht, !length_app in Hlt. cbn [length] in Hlt. lia. }
      rewrite IH by (try assumption; rewrite R, Eb; simpl; lia).
      rewrite R, Eb. reflexivity.
    + assert (Eov : ov = []).
      { destruct (within_budget_length _ _ B) as [-> | Hlt]; [reflexivity | lia]. }
      subst ov. rewrite app_nil_r in E.
      rewrite IH by (try assumption; rewrite R; simpl; lia).
      rewrite R. cbn [chunks sentence_buffer].
      rewrite emitted_is_join by assumption.
      destruct (sentence_buffer st) as [|x [|y b]] eqn:Eb; simpl in Hlen;
        [|now rewrite <- !app_assoc | lia].
      red in Ht. rewrite Eb in Ht. now destruct Hne.
    + assert (Eb : sentence_buffer st = []).
      { apply spaced_nil_inv. red in Ht. now rewrite <- Ht. }
      rewrite IH by (try assumption; rewrite R; simpl; lia).
      rewrite R, Eb. reflexivity.
Qed.

(** C6, as stated, fails: with the non-positive target 0 (budget 0) and a
    document that has sentences, [load_pdfs] raises nothing and returns the
    chunks it accumulated, one per sentence. *)
Lemma C6_counterexample :
  load_pdfs [Some [lit "A. B. C. D"]] 0
  = inr ([lit "A."; lit "B."; lit "C."], mkStats 1 3 10).
Proof. vm_compute. reflexivity. Qed.

(** C6, amended.  When the target is non-positive or the overlap budget
    [floor(C/4)] is zero, nothing is validated and no error is raised:
    [load_pdfs] on a non-empty set of files returns its chunks and
    statistics, no overlap is ever built, and every sentence of a document
    is emitted as a chunk of its own. *)
Theorem C6_no_configuration_error (chunk_size : Z) :
  (chunk_size / 4 <= 0)%Z ->
  (forall pdf_files, pdf_files <> [] ->
      exists docs st, load_pdfs pdf_files chunk_size = inr (docs, st))
  /\ (forall buffer, create_overlap (chunk_size / 4) buffer = ([], []))
  /\ (forall full_text,
         chunk_sentences chunk_size (split_sentences full_text)
         = split_sentences full_text).
Proof.
  intros Hq. split; [|split].
  - intros [|f r] Hne; [contradiction|]. unfold load_pdfs.
    destruct (fold_left _ _ _) as [docs st]. now exists docs, st.
  - intros buffer. now apply create_overlap_no_budget.
  - intros full_text. unfold chunk_sentences.
    rewrite chunk_loop_small_target;
      auto using split_sentences_clean.
    reflexivity.
Qed.

Lemma C6_no_configuration_error_witness :
  (-8 / 4 <= 0)%Z
  /\ (exists docs st, load_pdfs [Some [lit "A. B. C. D"]] (-8) = inr (docs, st))
  /\ chunk_sentences (-8) (split_sentences (lit "A. B. C. D"))
     = split_sentences (lit "A. B. C. D").
Proof.
  assert (H : (-8 / 4 <= 0)%Z) by (vm_compute; discriminate).
  split; [exact H|]. split.
  - apply (proj1 (C6_no_configuration_error (-8) H)). discriminate.
  - apply (proj2 (proj2 (C6_no_configuration_error (-8) H))).
Defined.

(** ** The segmenter on a text without boundary *)

Lemma has_boundary_cons (c d : ascii) (s : pystr) :
  has_boundary (c :: d :: s)
  = (is_terminator c && isspace d) || has_boundary (d :: s).
Proof. reflexivity. Qed.

Lemma match_here_matches (s : pystr) :
  match_here s <> None -> matches_here s = true.
Proof.
  unfold match_here, matches_here.
  destruct (_ && _); [reflexivity | now intros []].
Qed.

Lemma matches_here_boundary (s : pystr) :
  matches_here s = true -> has_boundary s = true.
Proof.
  induction s as [|c s IH]; [discriminate|].
  unfold matches_here in *. cbn [take_while drop_while].
  destruct (is_terminator c) eqn:Ec; [|discriminate].
  destruct s as [|d s]; [discriminate|].
  rewrite has_boundary_cons, Ec. cbn [is_nonempty andb].
  cbn [take_while drop_while] in *.
  destruct (is_terminator d) eqn:Ed.
  - intros H. rewrite (IH H). apply orb_true_r.
  - cbn [take_while]. now destruct (isspace d).
Qed.

Lemma match_here_boundary (s : pystr) :
  match_here s <> None -> has_boundary s = true.
Proof.
  intros H. now apply matches_here_boundary, match_here_matches.
Qed.

Lemma has_boundary_tail (c : ascii) (s : pystr) :
  has_boundary (c :: s) = false -> has_boundary s = false.
Proof.
  destruct s as [|d s]; [reflexivity|]. cbn [has_boundary].
  intros H. now apply orb_false_elim in H as [_ H].
Qed.

Lemma find_match_no_boundary (s : pystr) :
  has_boundary s = false -> find_match s = None.
Proof.
  induction s as [|c s IH]; intros H; [reflexivity|].
  cbn [find_match].
  destruct (match_here (c :: s)) as [[m rest]|] eqn:Em.
  - assert (Hb : has_boundary (c :: s) = true)
      by (apply match_here_boundary; now rewrite Em).
    congruence.
  - now rewrite (IH (has_boundary_tail c s H)).
Qed.

Lemma re_split_no_match (s : pystr) :
  find_match s = None -> re_split s = [s].
Proof.
  intros H. funelim (re_split s); [congruence | reflexivity].
Qed.

Lemma split_sentences_no_boundary (s : pystr) :
  has_boundary s = false -> split_sentences s = [].
Proof.
  intros H. unfold split_sentences.
  now rewrite (re_split_no_match s (find_match_no_boundary s H)).
Qed.

Lemma space_not_terminator (c : ascii) :
  isspace c = true -> is_terminator c = false.
Proof.
  destruct c as [[] [] [] [] [] [] [] []]; vm_compute; congruence.
Qed.

(** The pattern has no match exactly in the texts without boundary. *)
Lemma find_match_none_iff (s : pystr) :
  find_match s = None <-> has_boundary s = false.
Proof.
  split; [|apply find_match_no_boundary].
  induction s as [|c s IH]; [reflexivity|].
  cbn [find_match]. destruct (match_here (c :: s)) as [[m rest]|] eqn:Em;
    [discriminate|].
  destruct (find_match s) as [[[p1 m1] r1]|] eqn:Ef; [discriminate|].
  intros _. specialize (IH eq_refl).
  destruct s as [|d s]; [reflexivity|].
  rewrite has_boundary_cons, IH, orb_false_r.
  destruct (is_terminator c) eqn:Ec; [|reflexivity].
  destruct (isspace d) eqn:Ed; [|reflexivity].
  exfalso. unfold match_here in Em. cbn [take_while drop_while] in Em.
  rewrite Ec, (space_not_terminator d Ed) in Em.
  cbn [take_while] in Em. rewrite Ed in Em. discriminate.
Qed.

(** ** Statistics of a run *)

Lemma chunk_document_empty (chunk_size : Z) (raw_text : pystr) :
  clean_text raw_text = [] -> chunk_document chunk_size raw_text = (0, []).
Proof. unfold chunk_document. now intros ->. Qed.

Lemma process_file_failed (chunk_size : Z) (acc : list pystr * stats) :
  process_file chunk_size acc None = acc.
Proof. now destruct acc. Qed.

Lemma process_file_empty (chunk_size : Z) (acc : list pystr * stats)
    (pages : list pystr) :
  clean_text (extract_full_text pages) = [] ->
  process_file chunk_size acc (Some pages) = acc.
Proof.
  intros H. destruct acc as [docs [f c t]]. unfold process_file.
  rewrite (chunk_document_empty _ _ H). simpl.
  now rewrite app_nil_r, !Nat.add_0_r.
Qed.

(** C7. A batch of two documents, one of which has empty text (its
    normalized text is empty), in either order: the statistics count 2
    files, the chunks of the other document alone, and the characters of its
    normalized text; the collection holds the chunks of that document.  In
    general a document whose extraction fails, or whose text is empty,
    leaves the collection and the statistics as they were. *)
Theorem C7_empty_document (chunk_size : Z) (pages empty_pages : list pystr) :
  clean_text (extract_full_text empty_pages) = [] ->
  let full_text := clean_text (extract_full_text pages) in
  let doc_chunks := chunk_sentences chunk_size (split_sentences full_text) in
  let expected :=
    inr (doc_chunks, mkStats 2 (length doc_chunks) (length full_text)) in
  load_pdfs [Some pages; Some empty_pages] chunk_size = expected
  /\ load_pdfs [Some empty_pages; Some pages] chunk_size = expected
  /\ load_pdfs [Some pages; None] chunk_size = expected
  /\ load_pdfs [None; Some pages] chunk_size = expected
  /\ (forall acc, process_file chunk_size acc None = acc)
  /\ (forall acc, process_file chunk_size acc (Some empty_pages) = acc).
Proof.
  intros He full_text doc_chunks expected.
  assert (Hdoc : forall n,
            process_file chunk_size ([], mkStats n 0 0) (Some pages)
            = (doc_chunks, mkStats n (length doc_chunks) (length full_text))).
  { intros n. reflexivity. }
  unfold load_pdfs. cbn [fold_left length].
  split; [|split; [|split; [|split; [|split]]]].
  - now rewrite Hdoc, (process_file_empty _ _ _ He).
  - now rewrite (process_file_empty _ _ _ He), Hdoc.
  - now rewrite Hdoc, process_file_failed.
  - now rewrite process_file_failed, Hdoc.
  - apply process_file_failed.
  - intros acc. now apply process_file_empty.
Qed.

Lemma C7_empty_document_witness :
  clean_text (extract_full_text [lit ""; lit "  "]) = []
  /\ load_pdfs [Some [lit "A. B. C. D"]; Some [lit ""; lit "  "]] 100
     = inr ([lit "A. B. C."], mkStats 2 1 10).
Proof.
  split; [reflexivity|].
  exact (proj1 (C7_empty_document 100 [lit "A. B. C. D"] [lit ""; lit "  "]
                  eq_refl)).
Defined.

(** C10. For a document whose text was extracted, [total_chars] grows by
    the length of the whole normalized text, whatever the segmenter and the
    accumulator then do; when no terminator of that text is followed by
    whitespace, the document adds no chunk to the collection and nothing to
    the chunk count, while all its characters are counted. *)
Theorem C10_chars_without_chunks (chunk_size : Z) (pages : list pystr)
    (docs : list pystr) (st : stats) :
  let full_text := clean_text (extract_full_text pages) in
  let result := process_file chunk_size (docs, st) (Some pages) in
  total_chars (snd result) = total_chars st + length full_text
  /\ (has_boundary full_text = false ->
      re_split full_text = [full_text]
      /\ split_sentences full_text = []
      /\ fst result = docs
      /\ chunk_count (snd result) = chunk_count st
      /\ files (snd result) = files st).
Proof.
  intros full_text result. split; [reflexivity|].
  intros H. split.
  { now apply re_split_no_match, find_match_no_boundary. }
  subst result. unfold process_file, chunk_document.
  fold full_text. rewrite (split_sentences_no_boundary _ H). simpl.
  rewrite app_nil_r, Nat.add_0_r. auto.
Qed.

Lemma C10_chars_without_chunks_witness :
  let full_text := clean_text (extract_full_text [lit "Hello world."]) in
  let result :=
    process_file 100 ([], mkStats 1 0 0) (Some [lit "Hello world."]) in
  has_boundary full_text = false
  /\ total_chars (snd result) = 0 + 12
  /\ re_split full_text = [full_text]
  /\ split_sentences full_text = []
  /\ fst result = []
  /\ chunk_count (snd result) = 0
  /\ files (snd result) = 1.
Proof.
  intros full_text result.
  split; [reflexivity|]. split.
  - exact (proj1 (C10_chars_without_chunks 100 [lit "Hello world."] []
                    (mkStats 1 0 0))).
  - exact (proj2 (C10_chars_without_chunks 100 [lit "Hello world."] []
                    (mkStats 1 0 0)) eq_refl).
Defined.

(** ** The last item of [re.split] *)

(** C1, on the code.  The loop of lines 70-73 runs over
    [range(0, len(sentences)-1, 2)], which leaves out the last item of the
    list returned by [re.split]: a text without terminator gives no
    sentence at all, and the fragment after the last boundary is not
    produced. *)
Theorem C1_final_fragment_dropped :
  re_split (lit "Hello world") = [lit "Hello world"]
  /\ range_by_2 (length (re_split (lit "Hello world")) - 1) = []
  /\ split_sentences (clean_text (lit "Hello world")) = []
  /\ re_split (lit "One. Two") = [lit "One"; lit ". "; lit "Two"]
  /\ range_by_2 (length (re_split (lit "One. Two")) - 1) = [0]
  /\ split_sentences (clean_text (lit "One. Two")) = [lit "One."].
Proof. vm_compute. repeat split; reflexivity. Qed.

(** C2, on the code.  For the text "A. B. C." and target 100 the last
    item "C." of [re.split] is left out by the same loop: the sentences are
    "A." and "B.", and the one chunk emitted is "A. B.". *)
Theorem C2_scenario_one :
  let full_text := clean_text (extract_full_text [lit "A. B. C."]) in
  full_text = lit "A. B. C."
  /\ re_split full_text = [lit "A"; lit ". "; lit "B"; lit ". "; lit "C."]
  /\ split_sentences full_text = [lit "A."; lit "B."]
  /\ chunk_sentences 100 (split_sentences full_text) = [lit "A. B."]
  /\ load_pdfs [Some [lit "A. B. C."]] 100
     = inr ([lit "A. B."], mkStats 1 1 8).
Proof. vm_compute. repeat split; reflexivity. Qed.

(** ** The items of [re.split] *)

Lemma match_here_app (s m rest : pystr) :
  match_here s = Some (m, rest) -> s = m ++ rest.
Proof.
  unfold match_here. destruct (_ && _); [|discriminate].
  intros H. injection H as <- <-.
  now rewrite <- app_assoc, !take_drop_while.
Qed.

Lemma find_match_app (s pre m rest : pystr) :
  find_match s = Some (pre, m, rest) -> s = pre ++ m ++ rest.
Proof.
  revert pre. induction s as [|c s IH]; intros pre H.
  - simpl in H. discriminate.
  - cbn [find_match] in H.
    destruct (match_here (c :: s)) as [[m0 r0]|] eqn:Em.
    + injection H as <- <- <-. simpl. now apply match_here_app.
    + destruct (find_match s) as [[[p1 m1] r1]|] eqn:Ef; [|discriminate].
      injection H as <- <- <-. simpl. f_equal. now apply IH.
Qed.

Lemma re_split_cons (s pre m rest : pystr) :
  find_match s = Some (pre, m, rest) ->
  re_split s = pre :: m :: re_split rest.
Proof.
  intros H. funelim (re_split s); [|congruence].
  match goal with
  | E1 : find_match ?t = Some _, E2 : find_match ?t = Some _ |- _ =>
      rewrite E1 in E2; now injection E2 as -> -> ->
  end.
Qed.

Lemma re_split_cases (s : pystr) :
  (find_match s = None /\ re_split s = [s])
  \/ (exists pre m rest,
        find_match s = Some (pre, m, rest)
        /\ length rest < length s
        /\ re_split s = pre :: m :: re_split rest).
Proof.
  destruct (find_match s) as [[[pre m] rest]|] eqn:E.
  - right. exists pre, m, rest. split; [reflexivity|].
    split; [now apply find_match_length in E | now apply re_split_cons].
  - left. split; [reflexivity | now apply re_split_no_match].
Qed.

(** Induction on a text along the matches that [re.split] finds. *)
Lemma re_split_ind (P : pystr -> Prop) :
  (forall s, find_match s = None -> re_split s = [s] -> P s) ->
  (forall s pre m rest,
      find_match s = Some (pre, m, rest) ->
      re_split s = pre :: m :: re_split rest ->
      P rest -> P s) ->
  forall s, P s.
Proof.
  intros Hnone Hsome s.
  assert (H : forall n t, length t < n -> P t).
  { induction n as [|n IH]; intros t Hlt; [lia|].
    destruct (re_split_cases t) as [[E R] | (pre & m & rest & E & L & R)].
    - now apply Hnone.
    - apply (Hsome t pre m rest E R). apply IH. lia. }
  apply (H (S (length s))). lia.
Qed.

Lemma re_split_concat (s : pystr) : concat (re_split s) = s.
Proof.
  induction s as [s E R | s pre m rest E R IH] using re_split_ind.
  - rewrite R. simpl. apply app_nil_r.
  - rewrite R. simpl. rewrite IH. symmetry. now apply find_match_app.
Qed.

Lemma re_split_odd (s : pystr) : Nat.odd (length (re_split s)) = true.
Proof.
  induction s as [s E R | s pre m rest E R IH] using re_split_ind.
  - now rewrite R.
  - rewrite R. exact IH.
Qed.

Lemma take_drop_while_app (p : ascii -> bool) (a b : pystr) :
  forallb p a = true ->
  match b with [] => True | d :: _ => p d = false end ->
  take_while p (a ++ b) = a /\ drop_while p (a ++ b) = b.
Proof.
  intros Ha Hb. induction a as [|c a IH]; simpl.
  - destruct b as [|d b]; [auto|]. simpl. now rewrite Hb.
  - simpl in Ha. apply andb_prop in Ha as [-> Ha].
    destruct (IH Ha) as [-> ->]. auto.
Qed.

Lemma match_here_none (s : pystr) :
  match_here s = None <-> matches_here s = false.
Proof.
  unfold match_here, matches_here. destruct (_ && _); split; congruence.
Qed.

Lemma matches_here_cons (c : ascii) (s : pystr) :
  is_terminator c = true -> matches_here s = true ->
  matches_here (c :: s) = true.
Proof.
  unfold matches_here. cbn [take_while drop_while]. intros ->.
  intros H. apply andb_prop in H as [_ H]. exact H.
Qed.

Lemma matches_here_pair (c d : ascii) (s : pystr) :
  is_terminator c = true -> isspace d = true ->
  matches_here (c :: d :: s) = true.
Proof.
  intros Hc Hd. unfold matches_here. cbn [take_while drop_while].
  rewrite Hc, (space_not_terminator d Hd). cbn [take_while].
  now rewrite Hd.
Qed.

Lemma match_here_spec (s m rest : pystr) :
  match_here s = Some (m, rest) ->
  is_separator m = true /\ starts_with_space rest = false.
Proof.
  unfold match_here.
  set (terms := take_while is_terminator s).
  set (spaces := take_while isspace (drop_while is_terminator s)).
  destruct (is_nonempty terms) eqn:Et; [|discriminate].
  destruct (is_nonempty spaces) eqn:Es; [|discriminate].
  cbn [andb]. intros H. injection H as <- <-. split.
  - assert (Hs : forallb isspace spaces = true) by apply take_while_all.
    destruct (take_drop_while_app is_terminator terms spaces) as [E1 E2].
    + apply take_while_all.
    + destruct spaces as [|d sp]; [exact I|].
      simpl in Hs. apply andb_prop in Hs as [Hd _].
      now apply space_not_terminator.
    + unfold is_separator. now rewrite E1, E2, Et, Es, Hs.
  - pose proof (drop_while_head isspace (drop_while is_terminator s)) as H.
    unfold starts_with_space.
    now destruct (drop_while isspace (drop_while is_terminator s)).
Qed.

Lemma ends_with_terminator_cons (c d : ascii) (x : pystr) :
  ends_with_terminator (c :: d :: x) = ends_with_terminator (d :: x).
Proof.
  unfold ends_with_terminator.
  change (rev (c :: d :: x)) with (rev (d :: x) ++ [c]).
  destruct (rev (d :: x)) as [|e r] eqn:E; [|reflexivity].
  apply (f_equal (@length ascii)) in E. rewrite length_rev in E. discriminate.
Qed.

(** [find_match] gives the leftmost match, taken greedily. *)
Lemma find_match_spec (s pre m rest : pystr) :
  find_match s = Some (pre, m, rest) ->
  has_boundary pre = false /\ ends_with_terminator pre = false
  /\ is_separator m = true /\ starts_with_space rest = false.
Proof.
  revert pre. induction s as [|c s IH]; intros pre H.
  - simpl in H. discriminate.
  - cbn [find_match] in H.
    destruct (match_here (c :: s)) as [[m0 r0]|] eqn:Em.
    + injection H as <- <- <-. apply match_here_spec in Em. now simpl.
    + destruct (find_match s) as [[[p1 m1] r1]|] eqn:Ef; [|discriminate].
      injection H as <- <- <-.
      destruct (IH p1 eq_refl) as (Hb & He & Hm & Hr).
      apply match_here_none in Em.
      pose proof (find_match_app _ _ _ _ Ef) as Es.
      split; [|split; [|auto]].
      * destruct p1 as [|d p1]; [reflexivity|].
        rewrite has_boundary_cons, Hb, orb_false_r.
        destruct (is_terminator c) eqn:Ec; [|reflexivity].
        destruct (isspace d) eqn:Ed; [|reflexivity].
        rewrite Es in Em. simpl in Em.
        now rewrite (matches_here_pair c d _ Ec Ed) in Em.
      * destruct p1 as [|d p1]; [|now rewrite ends_with_terminator_cons].
        unfold ends_with_terminator. simpl.
        destruct (is_terminator c) eqn:Ec; [|reflexivity].
        assert (Hs : matches_here s = true).
        { destruct s as [|e s']; [discriminate|].
          cbn [find_match] in Ef.
          destruct (match_here (e :: s')) as [[m2 r2]|] eqn:Em2.
          - apply match_here_matches. now rewrite Em2.
          - destruct (find_match s') as [[[p3 m3] r3]|]; discriminate. }
        now rewrite (matches_here_cons c s Ec Hs) in Em.
Qed.

Lemma re_split_shape (s : pystr) : split_shape (re_split s) = true.
Proof.
  induction s as [s E R | s pre m rest E R IH] using re_split_ind.
  - rewrite R. simpl. apply find_match_none_iff in E. now rewrite E.
  - rewrite R. cbn [split_shape]. rewrite re_split_concat, IH.
    destruct (find_match_spec _ _ _ _ E) as (-> & -> & -> & ->).
    reflexivity.
Qed.

(** X1. [re.split] with its capturing group loses nothing: the items,
    concatenated, are the text; they are in odd number: text items
    alternating with separators. *)
Theorem X1_re_split_round_trip (s : pystr) :
  concat (re_split s) = s /\ Nat.odd (length (re_split s)) = true.
Proof. split; [apply re_split_concat | apply re_split_odd]. Qed.

(** X2. In the list of [re.split], every item at an odd place is a full
    match of the pattern (terminators then whitespace, both non-empty); no
    text item contains a terminator followed by whitespace; the text before
    a separator does not end with a terminator and the text after it does
    not begin with whitespace (the leftmost match, taken greedily). *)
Theorem X2_re_split_shape (s : pystr) : split_shape (re_split s) = true.
Proof. apply re_split_shape. Qed.

(** ** The sentence loop, two items at a time *)

Lemma range_by_2_step (n : nat) :
  range_by_2 (S (S n)) = 0 :: map (fun i => S (S i)) (range_by_2 n).
Proof.
  unfold range_by_2. change (S (S n) + 1) with (S (S (n + 1))).
  cbn [Nat.div2]. set (m := Nat.div2 (n + 1)).
  cbn [seq map]. rewrite <- seq_shift, !map_map. f_equal.
  apply map_ext. intros k. lia.
Qed.

Lemma flat_map_map {A B C : Type} (f : B -> list C) (g : A -> B) (l : list A) :
  flat_map f (map g l) = flat_map (fun x => f (g x)) l.
Proof. induction l as [|x l IH]; simpl; [reflexivity | now rewrite IH]. Qed.

Lemma clean_sentences_of_cons2 (a b : pystr) (rest : list pystr) :
  clean_sentences_of (a :: b :: rest) = kept (a ++ b) ++ clean_sentences_of rest.
Proof.
  destruct rest as [|r rest]; [reflexivity|].
  unfold clean_sentences_of.
  change (length (a :: b :: r :: rest) - 1) with (S (S (length rest))).
  change (length (r :: rest) - 1) with (length rest - 0).
  rewrite Nat.sub_0_r, range_by_2_step.
  cbn [flat_map]. rewrite flat_map_map. reflexivity.
Qed.

Lemma clean_sentences_of_pairs (l : list pystr) :
  clean_sentences_of l = flat_map kept (pair_up l).
Proof.
  assert (H : forall n l, length l <= n ->
                clean_sentences_of l = flat_map kept (pair_up l)).
  { clear l. induction n as [|n IH]; intros l Hl.
    - destruct l; [reflexivity | simpl in Hl; lia].
    - destruct l as [|a [|b rest]]; [reflexivity | reflexivity |].
      rewrite clean_sentences_of_cons2. cbn [pair_up flat_map].
      rewrite IH by (simpl in Hl; lia). reflexivity. }
  now apply (H (length l)).
Qed.

Lemma drop_while_nil_all (p : ascii -> bool) (s : pystr) :
  drop_while p s = [] -> forallb p s = true.
Proof.
  induction s as [|c s IH]; simpl; [reflexivity|].
  destruct (p c); [exact IH | discriminate].
Qed.

Lemma strip_nil_iff (s : pystr) : strip s = [] <-> ws_run s = true.
Proof.
  unfold strip, rstrip, lstrip, ws_run. split.
  - intros H. apply (f_equal (@rev ascii)) in H.
    rewrite rev_involutive in H. simpl in H.
    apply drop_while_nil_all, forallb_rev in H. rewrite rev_involutive in H.
    pose proof (drop_while_head isspace s) as Hh.
    destruct (drop_while isspace s) as [|c r] eqn:E.
    + now apply drop_while_nil_all.
    + simpl in H. rewrite Hh in H. discriminate.
  - intros H. rewrite <- (app_nil_r s), (drop_while_all isspace s [] H).
    reflexivity.
Qed.

Lemma strip_nonempty (s : pystr) (c : ascii) :
  In c s -> isspace c = false -> is_nonempty (strip s) = true.
Proof.
  intros Hin Hc. destruct (strip s) eqn:E; [|reflexivity].
  apply strip_nil_iff in E. unfold ws_run in E.
  rewrite forallb_forall in E. rewrite (E c Hin) in Hc. discriminate.
Qed.

Lemma separator_has_terminator (m : pystr) :
  is_separator m = true ->
  exists c, In c m /\ isspace c = false.
Proof.
  unfold is_separator. destruct m as [|c m]; [discriminate|].
  cbn [take_while]. destruct (is_terminator c) eqn:Ec; [|discriminate].
  intros _. exists c. split; [now left|].
  destruct (isspace c) eqn:Es; [|reflexivity].
  now rewrite (space_not_terminator c Es) in Ec.
Qed.

Lemma pair_up_kept (l : list pystr) :
  split_shape l = true -> flat_map kept (pair_up l) = map strip (pair_up l).
Proof.
  assert (H : forall n l, length l <= n -> split_shape l = true ->
                flat_map kept (pair_up l) = map strip (pair_up l)).
  { clear l. induction n as [|n IH]; intros l Hl Hs.
    - destruct l; [reflexivity | simpl in Hl; lia].
    - destruct l as [|a [|b rest]]; [reflexivity | reflexivity |].
      cbn [split_shape] in Hs.
      apply andb_prop in Hs as [_ Hs]. apply andb_prop in Hs as [Hs Hr].
      apply andb_prop in Hs as [Hs _]. apply andb_prop in Hs as [Hb _].
      cbn [pair_up flat_map map].
      rewrite IH by (try assumption; simpl in Hl; lia).
      destruct (separator_has_terminator b Hb) as (c & Hc & Hn).
      unfold kept.
      rewrite (strip_nonempty (a ++ b) c); [reflexivity | | exact Hn].
      apply in_or_app. now right. }
  now apply (H (length l)).
Qed.

Lemma pair_up_length (l : list pystr) :
  length (pair_up l) = Nat.div2 (length l).
Proof.
  assert (H : forall n l, length l <= n ->
                length (pair_up l) = Nat.div2 (length l)).
  { clear l. induction n as [|n IH]; intros l Hl.
    - destruct l; [reflexivity | simpl in Hl; lia].
    - destruct l as [|a [|b rest]]; [reflexivity | reflexivity |].
      cbn [pair_up length Nat.div2]. rewrite IH by (simpl in Hl; lia).
      reflexivity. }
  now apply (H (length l)).
Qed.

(** X3. The sentence loop of lines 69-73 joins the items of [re.split] two
    by two, text with the separator after it, and strips each pair; the
    test [i+1 < len(sentences)] always holds and the filter
    [if sent.strip()] never drops a pair, since a pair holds a terminator.
    So there are as many sentences as separators, whatever the text. *)
Theorem X3_sentences_are_pairs (full_text : pystr) :
  split_sentences full_text = map strip (pair_up (re_split full_text))
  /\ 2 * length (split_sentences full_text) + 1
     = length (re_split full_text).
Proof.
  assert (E : split_sentences full_text
              = map strip (pair_up (re_split full_text))).
  { unfold split_sentences.
    rewrite clean_sentences_of_pairs. apply pair_up_kept, re_split_shape. }
  split; [exact E|].
  rewrite E, length_map, pair_up_length.
  pose proof (re_split_odd full_text) as Ho.
  rewrite (Nat.div2_odd (length (re_split full_text))) at 2.
  rewrite Ho. simpl. lia.
Qed.

(** ** Normalized texts *)

Lemma single_spaced_token (t r : pystr) :
  forallb (fun c => negb (isspace c)) t = true ->
  single_spaced (t ++ r) = single_spaced r.
Proof.
  induction t as [|c t IH]; [reflexivity|]. cbn [forallb app single_spaced].
  intros H. apply andb_prop in H as [Hc Ht]. apply negb_true_iff in Hc.
  now rewrite Hc, IH.
Qed.

Lemma single_spaced_suffix (a b : pystr) :
  single_spaced (a ++ b) = true -> single_spaced b = true.
Proof.
  induction a as [|c a IH]; [auto|]. cbn [app single_spaced].
  intros H. apply andb_prop in H as [_ H]. auto.
Qed.

Lemma tokens_token (parts : list (pystr * pystr)) :
  gaps_ok parts = true -> forallb token (map fst parts) = true.
Proof.
  induction parts as [|[t w] r IH]; [reflexivity|].
  cbn [gaps_ok map fst forallb]. intros H.
  apply andb_prop in H as [H Hr]. apply andb_prop in H as [H _].
  apply andb_prop in H as [Ht _]. now rewrite Ht, IH.
Qed.

Lemma join_space_tokens_spaced (ts : list pystr) :
  forallb token ts = true -> single_spaced (join_space ts) = true.
Proof.
  induction ts as [|t r IH]; [reflexivity|]. cbn [forallb]. intros H.
  apply andb_prop in H as [Ht Hr]. specialize (IH Hr).
  assert (Hn : forallb (fun c => negb (isspace c)) t = true).
  { unfold token in Ht. now apply andb_prop in Ht as [_ Ht]. }
  destruct r as [|t2 r].
  - simpl. rewrite <- (app_nil_r t). now rewrite single_spaced_token.
  - rewrite join_space_cons by discriminate.
    rewrite single_spaced_token by assumption.
    cbn [app single_spaced]. rewrite IH, andb_true_r.
    change (isspace SP) with true. cbn [Ascii.eqb Bool.eqb andb].
    cbn [forallb] in Hr. apply andb_prop in Hr as [Ht2 Hr'].
    apply token_clean in Ht2. apply andb_prop in Ht2 as [Hs _].
    destruct r as [|t3 r]; [exact Hs|].
    rewrite join_space_cons by discriminate. now apply starts_ok_app.
Qed.

Lemma starts_ok_not_space (x : pystr) :
  starts_ok x = true -> starts_with_space x = false.
Proof.
  destruct x as [|c x]; [discriminate|]. simpl. now intros H%negb_true_iff.
Qed.

Lemma clean_text_normalized (s : pystr) : normalized (clean_text s) = true.
Proof.
  destruct (decompose s) as (w0 & parts & Hw & Hp & ->).
  rewrite (clean_text_assemble w0 parts Hw Hp). unfold normalized.
  rewrite (join_space_tokens_spaced _ (tokens_token parts Hp)), andb_true_r.
  destruct parts as [|q r]; [reflexivity|].
  pose proof (join_space_clean (map fst (q :: r)) ltac:(discriminate)
                (tokens_clean _ Hp)) as Hc.
  apply andb_prop in Hc as [Hs _].
  now rewrite (starts_ok_not_space _ Hs).
Qed.

(** X4. The normalized text has no leading and no trailing whitespace, and
    its only whitespace characters are single spaces, each followed by a
    character that is not whitespace. *)
Theorem X4_clean_text_normalized (raw_text : pystr) :
  normalized (clean_text raw_text) = true
  /\ strip (clean_text raw_text) = clean_text raw_text.
Proof.
  split; [apply clean_text_normalized|].
  destruct (decompose raw_text) as (w0 & parts & Hw & Hp & ->).
  rewrite (clean_text_assemble w0 parts Hw Hp).
  destruct parts as [|q r]; [reflexivity|].
  apply strip_clean, join_space_clean; [discriminate | now apply tokens_clean].
Qed.

(** ** What the sentence loop leaves out *)

Lemma separator_parts (m : pystr) :
  is_separator m = true ->
  exists terms w,
    m = terms ++ w /\ terms <> [] /\ forallb is_terminator terms = true
    /\ w <> [] /\ forallb isspace w = true.
Proof.
  unfold is_separator. intros H.
  apply andb_prop in H as [H Hw]. apply andb_prop in H as [Ht Hn].
  exists (take_while is_terminator m), (drop_while is_terminator m).
  split; [now rewrite take_drop_while|].
  split; [now destruct (take_while is_terminator m)|].
  split; [apply take_while_all|].
  split; [now destruct (drop_while is_terminator m) | exact Hw].
Qed.

Lemma terminator_not_space (c : ascii) :
  is_terminator c = true -> isspace c = false.
Proof.
  intros H. destruct (isspace c) eqn:E; [|reflexivity].
  now rewrite (space_not_terminator c E) in H.
Qed.

Lemma terminators_end (pre terms : pystr) :
  terms <> [] -> forallb is_terminator terms = true ->
  ends_ok (pre ++ terms) = true.
Proof.
  intros Hne Ht. apply ends_ok_app. unfold ends_ok.
  apply forallb_rev in Ht.
  destruct (rev terms) as [|c r] eqn:E.
  - apply (f_equal (@rev ascii)) in E. rewrite rev_involutive in E.
    now destruct Hne.
  - simpl in *. apply andb_prop in Ht as [Hc _].
    now rewrite (terminator_not_space c Hc).
Qed.

(** In a normalized text a separator is its terminators and one space, the
    sentence before it is kept whole, and what follows is normalized. *)
Lemma normalized_match (s pre m rest : pystr) :
  normalized s = true -> find_match s = Some (pre, m, rest) ->
  exists terms,
    m = terms ++ [SP]
    /\ kept (pre ++ m) = [pre ++ terms]
    /\ normalized rest = true.
Proof.
  intros Hn E.
  pose proof (find_match_app _ _ _ _ E) as Es.
  destruct (find_match_spec _ _ _ _ E) as (_ & _ & Hm & _).
  destruct (separator_parts m Hm) as (terms & w & -> & Hne & Ht & Hw & Hws).
  apply andb_prop in Hn as [Hlead Hsp]. apply negb_true_iff in Hlead.
  assert (Hsuf : single_spaced (w ++ rest) = true).
  { rewrite Es, <- !app_assoc in Hsp.
    now apply single_spaced_suffix, single_spaced_suffix in Hsp. }
  destruct w as [|c w]; [now destruct Hw|].
  cbn [forallb] in Hws. apply andb_prop in Hws as [Hc Hws].
  cbn [app single_spaced] in Hsuf. rewrite Hc in Hsuf.
  apply andb_prop in Hsuf as [H1 Hrest]. apply andb_prop in H1 as [Heq Hso].
  apply Ascii.eqb_eq in Heq. subst c.
  assert (w = []) as ->.
  { destruct w as [|d w]; [reflexivity|]. simpl in Hws, Hso.
    apply andb_prop in Hws as [Hd _]. now rewrite Hd in Hso. }
  cbn [app] in Hso, Hrest. exists terms. split; [reflexivity|]. split.
  - unfold kept. rewrite app_assoc.
    assert (Hcl : clean (pre ++ terms) = true).
    { unfold clean. rewrite (terminators_end pre terms Hne Ht), andb_true_r.
      assert (Es' : s = (pre ++ terms) ++ [SP] ++ rest)
        by now rewrite Es, <- !app_assoc.
      destruct (pre ++ terms) as [|d x] eqn:Ex.
      - apply app_eq_nil in Ex as [_ Ex]. now destruct Hne.
      - rewrite Es' in Hlead. simpl in Hlead. simpl. now rewrite Hlead. }
    pose proof (strip_padded [] (pre ++ terms) [SP] eq_refl eq_refl
                  (or_intror Hcl)) as Hst.
    cbn [app] in Hst. rewrite Hst.
    apply clean_nonempty in Hcl. now destruct (pre ++ terms).
  - unfold normalized. now rewrite (starts_ok_not_space rest Hso), Hrest.
Qed.

Lemma spaced_single (x : pystr) : spaced [x] = x ++ [SP].
Proof. unfold spaced. simpl. apply app_nil_r. Qed.

Lemma normalized_round_trip (s : pystr) :
  normalized s = true ->
  s = spaced (split_sentences s) ++ last (re_split s) [].
Proof.
  induction s as [s E R | s pre m rest E R IH] using re_split_ind; intros Hn.
  - unfold split_sentences. now rewrite R.
  - destruct (normalized_match s pre m rest Hn E) as (terms & -> & Hk & Hr).
    specialize (IH Hr). unfold split_sentences in *.
    rewrite R, clean_sentences_of_cons2, Hk, spaced_app, spaced_single.
    match goal with
    | |- _ = _ ++ ?x => assert (Hl : x = last (re_split rest) [])
    end.
    { pose proof (re_split_odd rest) as Ho.
      destruct (re_split rest); [discriminate | reflexivity]. }
    rewrite Hl, <- !app_assoc, <- IH.
    rewrite (find_match_app _ _ _ _ E) at 1. now rewrite <- !app_assoc.
Qed.

(** X5. On the normalized text of a document the sentence loop leaves out
    the last item of [re.split] and nothing else: the text is its
    sentences, each followed by one space, followed by that last item. *)
Theorem X5_only_last_item_left_out (raw_text : pystr) :
  let full_text := clean_text raw_text in
  full_text
  = spaced (split_sentences full_text) ++ last (re_split full_text) [].
Proof. apply normalized_round_trip, clean_text_normalized. Qed.

(** ** What normalization keeps *)








Lemma clean_text_nil_iff (s : pystr) : clean_text s = [] <-> ws_run s = true.
Proof.
  split.
  - destruct (decompose s) as (w0 & parts & Hw & Hp & ->).
    rewrite (clean_text_assemble w0 parts Hw Hp).
    destruct parts as [|q r].
    + intros _. simpl. now rewrite app_nil_r.
    + intros E. exfalso.
      apply (clean_nonempty (join_space (map fst (q :: r)))); [|exact E].
      apply join_space_clean; [discriminate | now apply tokens_clean].
  - intros H. rewrite <- (app_nil_r s).
    apply (clean_text_assemble s [] H eq_refl).
Qed.

Lemma extract_full_text_concat (pages : list pystr) :
  extract_full_text pages
  = concat (map (fun page => page ++ [ascii_of_nat 10]) pages).
Proof.
  unfold extract_full_text.
  assert (H : forall acc,
            fold_left (fun full_text page => full_text ++ page ++ [ascii_of_nat 10])
                      pages acc
            = acc ++ concat (map (fun page => page ++ [ascii_of_nat 10]) pages)).
  { induction pages as [|p r IH]; intros acc; simpl.
    - now rewrite app_nil_r.
    - now rewrite IH, <- !app_assoc. }
  apply (H []).
Qed.

Lemma ws_run_full_text (pages : list pystr) :
  ws_run (extract_full_text pages) = forallb ws_run pages.
Proof.
  rewrite extract_full_text_concat. unfold ws_run.
  induction pages as [|p r IH]; [reflexivity|].
  cbn [map concat forallb]. rewrite !forallb_app, IH.
  cbn [forallb]. change (isspace (ascii_of_nat 10)) with true.
  now rewrite !andb_true_r.
Qed.

(** X7. The normalized text of a document is empty exactly when every page
    holds nothing but whitespace (a document without pages included); such
    a document leaves the collection and the statistics as they were. *)
Theorem X7_empty_iff_whitespace (chunk_size : Z) (pages : list pystr)
    (acc : list pystr * stats) :
  (clean_text (extract_full_text pages) = []
   <-> forallb ws_run pages = true)
  /\ (forallb ws_run pages = true ->
      process_file chunk_size acc (Some pages) = acc).
Proof.
  rewrite <- ws_run_full_text.
  split; [apply clean_text_nil_iff|].
  intros H. now apply process_file_empty, clean_text_nil_iff.
Qed.

Lemma X7_empty_iff_whitespace_witness :
  forallb ws_run [lit " 	"; lit ""] = true
  /\ process_file 900 ([lit "A."], mkStats 3 1 7) (Some [lit " 	"; lit ""])
     = ([lit "A."], mkStats 3 1 7).
Proof.
  split; [reflexivity|].
  exact (proj2 (X7_empty_iff_whitespace 900 [lit " 	"; lit ""]
                  ([lit "A."], mkStats 3 1 7)) eq_refl).
Defined.

(** ** Greedy packing *)

Lemma packing_inv_init (c : Z) : packing_inv c [] chunker_init.
Proof.
  exists None, [], [], [].
  split; [apply packed_nil|]. split; [reflexivity|]. split; [auto|].
  split; [intros Hne; now destruct Hne|]. repeat split.
Qed.

Lemma buffer_nil_of_text (st : chunker) :
  text_inv st -> current_chunk st = [] -> sentence_buffer st = [].
Proof. unfold text_inv. intros H E. apply spaced_nil_inv. now rewrite <- H. Qed.

Lemma text_nonempty_buffer (st : chunker) :
  text_inv st -> current_chunk st <> [] -> sentence_buffer st <> [].
Proof. unfold text_inv. intros H Hne E. apply Hne. now rewrite H, E. Qed.

Lemma linked_grow (c : Z) prev (ov home : list pystr) (sent : pystr) :
  home <> [] -> linked c prev (ov, home) -> linked c prev (ov, home ++ [sent]).
Proof.
  intros Hne. destruct prev as [buffer|]; [|auto].
  intros (dropped & s & home' & E & B & S & Eh & Hov). simpl in *.
  exists dropped, s, (home' ++ [sent]). subst home. auto 6.
Qed.

Lemma packing_inv_step (c : Z) (processed : list pystr) (st : chunker)
    (sent : pystr) :
  packing_inv c processed st -> clean sent = true ->
  packing_inv c (processed ++ [sent]) (chunk_step c st sent).
Proof.
  intros (prev & ws & ov & home & P & Eb & Hnil & Hcur & Ht & Hc & Ech & Ep) Hs.
  pose proof (chunk_step_text_inv c st sent Ht) as Ht'.
  pose proof (chunk_step_clean c st sent Hc Hs) as Hc'.
  destruct (chunk_step_cases c st sent)
    as [[Hlt R] | [(Hge & Hne & dropped & ov' & E & B & S & R) | (_ & He & R)]].
  - exists prev, ws, ov, (home ++ [sent]). rewrite R in *. cbn [chunks current_chunk sentence_buffer] in *.
    split; [exact P|]. split; [now rewrite Eb, app_assoc|].
    split; [intros E; now destruct home|].
    split; [|split; [exact Ht'|split; [exact Hc'|split; [exact Ech|]]]].
    + intros _. destruct home as [|h home].
      * destruct (Hnil eq_refl) as [Eb0 ->].
        rewrite Eb0 in Eb. symmetry in Eb. apply app_eq_nil in Eb as [-> _].
        split; [reflexivity|]. split; [discriminate | now right].
      * destruct (Hcur ltac:(discriminate)) as [Hl _].
        split; [now apply linked_grow|]. split; [now destruct home|].
        left. cbn [fst snd]. rewrite app_assoc, <- Eb, spaced_snoc.
        red in Ht. rewrite <- Ht, !length_app. cbn [length]. lia.
    + now rewrite <- Ep, app_assoc.
  - pose proof (text_nonempty_buffer st Ht Hne) as Hbne.
    assert (Hhome : home <> []).
    { intros E'. now destruct (Hnil E'). }
    destruct (Hcur Hhome) as [Hl Hok].
    exists (Some (ov ++ home)), (ws ++ [(ov, home)]), ov', [sent].
    rewrite R in *. cbn [chunks current_chunk sentence_buffer] in *.
    split; [exact (packed_snoc c prev ws (ov, home) P Hl Hok)|].
    split; [reflexivity|]. split; [discriminate|].
    split; [|split; [exact Ht'|split; [exact Hc'|split]]].
    + intros _. split; [|split; [discriminate | now right]].
      exists dropped, sent, []. cbn [fst snd]. rewrite <- Eb.
      red in Ht. rewrite <- Ht. auto 6.
    + rewrite map_app, Ech. cbn [map]. unfold window_text at 2. cbn [fst snd].
      now rewrite emitted_is_join, Eb.
    + rewrite concat_map_snoc. cbn [snd]. now rewrite <- Ep.
  - pose proof (buffer_nil_of_text st Ht He) as Eb0.
    rewrite Eb0 in Eb. symmetry in Eb. apply app_eq_nil in Eb as [-> ->].
    destruct (Hnil eq_refl) as [_ ->].
    exists None, ws, [], [sent]. rewrite R in *.
    cbn [chunks current_chunk sentence_buffer] in *.
    split; [exact P|]. split; [reflexivity|]. split; [discriminate|].
    split; [|split; [exact Ht'|split; [exact Hc'|split; [exact Ech|]]]].
    + intros _. split; [reflexivity|]. split; [discriminate | now right].
    + rewrite app_nil_r in Ep. now rewrite Ep.
Qed.

Lemma packing_inv_loop (c : Z) (sentences : list pystr) :
  forall processed st,
    packing_inv c processed st -> forallb clean sentences = true ->
    packing_inv c (processed ++ sentences) (chunk_loop c st sentences).
Proof.
  induction sentences as [|s r IH]; intros processed st H Hc.
  - now rewrite app_nil_r.
  - simpl in Hc. apply andb_prop in Hc as [Hs Hr].
    change (processed ++ s :: r) with (processed ++ [s] ++ r).
    rewrite app_assoc. apply IH; [now apply packing_inv_step | exact Hr].
Qed.

Lemma packing_inv_finish (c : Z) (processed : list pystr) (st : chunker) :
  packing_inv c processed st ->
  exists prev windows,
    packed c prev windows
    /\ concat (map snd windows) = processed
    /\ chunk_finish st = map window_text windows.
Proof.
  intros (prev & ws & ov & home & P & Eb & Hnil & Hcur & Ht & Hc & Ech & Ep).
  destruct (chunk_finish_cases st) as [[He R] | [Hne R]]; rewrite R.
  - pose proof (buffer_nil_of_text st Ht He) as Eb0.
    rewrite Eb0 in Eb. symmetry in Eb. apply app_eq_nil in Eb as [-> ->].
    exists prev, ws. rewrite app_nil_r in Ep. auto.
  - pose proof (text_nonempty_buffer st Ht Hne) as Hbne.
    assert (Hhome : home <> []).
    { intros E'. now destruct (Hnil E'). }
    destruct (Hcur Hhome) as [Hl Hok].
    exists (Some (ov ++ home)), (ws ++ [(ov, home)]).
    split; [exact (packed_snoc c prev ws (ov, home) P Hl Hok)|].
    split; [now rewrite concat_map_snoc|].
    rewrite map_app, Ech. cbn [map]. unfold window_text at 2. cbn [fst snd].
    now rewrite emitted_is_join, Eb.
Qed.

Lemma chunk_sentences_packed (c : Z) (sentences : list pystr) :
  forallb clean sentences = true ->
  exists prev windows,
    packed c prev windows
    /\ concat (map snd windows) = sentences
    /\ chunk_sentences c sentences = map window_text windows.
Proof.
  intros H. apply (packing_inv_finish c sentences).
  apply (packing_inv_loop c sentences [] chunker_init);
    [apply packing_inv_init | exact H].
Qed.

(** X8. The chunks of a document are packed greedily.  They are the texts
    of windows whose home sentences are the sentences of the document in
    order; the first window has no overlap; every later window was opened
    because its first home sentence did not fit after the buffer before it
    ([len(text) + len(s) + 1 >= C]), and its overlap is the suffix of that
    buffer selected by the scan of budget [floor(C/4)]; a window with more
    than one home sentence has a text, trailing space included, shorter
    than [C]. *)
Theorem X8_greedy_packing (chunk_size : Z) (full_text : pystr) :
  exists prev windows,
    packed chunk_size prev windows
    /\ concat (map snd windows) = split_sentences full_text
    /\ chunk_sentences chunk_size (split_sentences full_text)
       = map window_text windows.
Proof. apply chunk_sentences_packed, split_sentences_clean. Qed.

(** ** Consequences of the packing *)

Lemma within_budget_nil (o : Z) : within_budget o [].
Proof. intros [|? ?] ? ? E; discriminate. Qed.

Lemma packed_windows (c : Z) prev windows :
  packed c prev windows ->
  Forall (fun w => window_ok c w /\ within_budget (c / 4) (fst w)) windows.
Proof.
  induction 1 as [|prev ws w P IH L Hok]; [constructor|].
  apply Forall_app. split; [exact IH|]. constructor; [|constructor].
  split; [exact Hok|]. destruct prev as [buffer|]; simpl in L.
  - now destruct L as (_ & _ & _ & _ & B & _).
  - rewrite L. apply within_budget_nil.
Qed.

Lemma homes_length (windows : list (list pystr * list pystr)) :
  Forall (fun w => snd w <> []) windows ->
  length windows <= length (concat (map snd windows)).
Proof.
  induction 1 as [|w ws Hw _ IH]; [reflexivity|].
  cbn [map concat length]. rewrite length_app.
  destruct (snd w); [contradiction | simpl; lia].
Qed.

(** X9. A document gives at most as many chunks as it has sentences, and
    it gives none exactly when it has no sentence. *)
Theorem X9_chunk_count (chunk_size : Z) (full_text : pystr) :
  let sentences := split_sentences full_text in
  let emitted := chunk_sentences chunk_size sentences in
  length emitted <= length sentences
  /\ (emitted = [] <-> sentences = []).
Proof.
  intros sentences emitted.
  destruct (chunk_sentences_packed chunk_size sentences
              (split_sentences_clean full_text)) as (prev & ws & P & Es & Ee).
  fold emitted in Ee. rewrite Ee, <- Es.
  assert (Hh : Forall (fun w => snd w <> []) ws).
  { eapply Forall_impl; [|exact (packed_windows _ _ _ P)].
    intros w [[H _] _]. exact H. }
  split; [rewrite length_map; now apply homes_length|].
  split.
  - intros E. apply map_eq_nil in E. now rewrite E.
  - intros E. pose proof (homes_length ws Hh) as Hl. rewrite E in Hl.
    destruct ws; [reflexivity | simpl in Hl; lia].
Qed.

Lemma X9_chunk_count_witness :
  split_sentences (lit "No boundary in here.") = []
  /\ chunk_sentences 100 (split_sentences (lit "No boundary in here.")) = [].
Proof.
  split; [reflexivity|].
  exact (proj2 (proj2 (X9_chunk_count 100 (lit "No boundary in here.")))
           eq_refl).
Defined.

Lemma list_max_in (l : list nat) (n : nat) : In n l -> n <= list_max l.
Proof.
  intros H. pose proof (proj1 (list_max_le l (list_max l)) (le_n _)) as F.
  rewrite Forall_forall in F. now apply F.
Qed.

(** X10. A sharper bound than the sum [C + L + floor(C/4)], for every
    target, positive or not: a chunk is at most [C - 2] characters long, or
    it is one sentence after an overlap shorter than [floor(C/4)], hence at
    most [L + max(floor(C/4) - 1, 0)] characters long, [L] being the length
    of the longest sentence of the document. *)
Theorem X10_tight_size_bound (chunk_size : Z) (full_text c : pystr) :
  In c (chunk_sentences chunk_size (split_sentences full_text)) ->
  (Z.of_nat (length c)
   <= Z.max (chunk_size - 2)
            (Z.of_nat (max_sentence_length (split_sentences full_text))
             + Z.max (chunk_size / 4 - 1) 0))%Z.
Proof.
  set (sentences := split_sentences full_text).
  destruct (chunk_sentences_packed chunk_size sentences
              (split_sentences_clean full_text)) as (prev & ws & P & Es & Ee).
  rewrite Ee. intros Hin. apply in_map_iff in Hin as ([ov home] & <- & Hw).
  pose proof (packed_windows _ _ _ P) as F. rewrite Forall_forall in F.
  destruct (F _ Hw) as [[Hne [Hfit | Hone]] B]; cbn [fst snd] in *.
  - unfold window_text. cbn [fst snd].
    assert (Hb : ov ++ home <> []).
    { intros E. apply app_eq_nil in E as [_ E]. contradiction. }
    pose proof (join_space_length _ Hb). lia.
  - destruct home as [|s [|s2 home]]; [contradiction | | discriminate].
    unfold window_text. cbn [fst snd].
    pose proof (join_space_length (ov ++ [s])
                  ltac:(intros E; now apply app_eq_nil in E as [_ E])) as Hj.
    rewrite spaced_snoc, !length_app in Hj. cbn [length] in Hj.
    assert (Hs : length s <= max_sentence_length sentences).
    { unfold max_sentence_length. apply list_max_in, in_map.
      rewrite <- Es. apply in_concat. exists [s]. split; [|now left].
      apply in_map_iff. exists (ov, [s]). auto. }
    assert (Hov : (Z.of_nat (length (spaced ov))
                   <= Z.max (chunk_size / 4 - 1) 0)%Z).
    { destruct (within_budget_length _ _ B) as [-> | Hov];
        [cbn [spaced map concat length] |]; lia. }
    lia.
Qed.

Lemma X10_tight_size_bound_witness :
  In (lit "A. B?") (chunk_sentences 7 (split_sentences (lit "A. B? C! D")))
  /\ (Z.of_nat (length (lit "A. B?"))
      <= Z.max (7 - 2)
               (Z.of_nat (max_sentence_length
                            (split_sentences (lit "A. B? C! D")))
                + Z.max (7 / 4 - 1) 0))%Z.
Proof.
  assert (H : In (lit "A. B?")
                 (chunk_sentences 7 (split_sentences (lit "A. B? C! D")))).
  { vm_compute. left. reflexivity. }
  split; [exact H|].
  exact (X10_tight_size_bound 7 (lit "A. B? C! D") (lit "A. B?") H).
Defined.

(** ** One chunk *)

Lemma chunk_finish_nonempty (st : chunker) :
  current_chunk st <> [] ->
  chunk_finish st = chunks st ++ [strip (current_chunk st)].
Proof.
  intros H. destruct (chunk_finish_cases st) as [[E _] | [_ R]];
    [contradiction | exact R].
Qed.

Lemma snoc_space_nonempty (s : pystr) : s ++ [SP] <> [].
Proof. now destruct s. Qed.

Lemma chunk_loop_fits (c : Z) (sentences : list pystr) :
  forall st,
    (Z.of_nat (length (current_chunk st))
     + Z.of_nat (length (spaced sentences)) < c)%Z ->
    chunk_loop c st sentences
    = mkChunker (chunks st) (current_chunk st ++ spaced sentences)
                (sentence_buffer st ++ sentences).
Proof.
  induction sentences as [|s r IH]; intros st H.
  - simpl. rewrite !app_nil_r. now destruct st.
  - change (spaced (s :: r)) with ((s ++ [SP]) ++ spaced r) in *.
    rewrite !length_app in H. cbn [length] in H.
    cbn [chunk_loop fold_left]. fold (chunk_loop c (chunk_step c st s) r).
    destruct (chunk_step_cases c st s)
      as [[_ R] | [(Hge & _) | (Hge & _)]]; [|lia|lia].
    rewrite IH; rewrite R; cbn [chunks current_chunk sentence_buffer].
    + now rewrite <- !app_assoc.
    + rewrite !length_app. cbn [length]. lia.
Qed.

Lemma packed_nil_inv (c : Z) prev : packed c prev [] -> prev = None.
Proof.
  intros P. remember [] as ws eqn:E. destruct P as [|prev ws w]; [reflexivity|].
  now destruct ws.
Qed.

Lemma packed_single (c : Z) prev (w : list pystr * list pystr) :
  packed c prev [w] -> fst w = [] /\ window_ok c w.
Proof.
  intros P. remember [w] as l eqn:E.
  destruct P as [|prev ws w0 P0 L Hok]; [discriminate|].
  apply (app_inj_tail ws [] w0 w) in E as [-> ->].
  apply packed_nil_inv in P0. subst prev. auto.
Qed.

(** X11. A document with sentences gives exactly one chunk, the join of
    all its sentences, when their text fits the target
    ([len(s1 + " " + ... + sn + " ") < C]) or when it has one sentence only;
    in every other case it gives at least two chunks. *)
Theorem X11_single_chunk (chunk_size : Z) (full_text : pystr) :
  let sentences := split_sentences full_text in
  let emitted := chunk_sentences chunk_size sentences in
  sentences <> [] ->
  (((Z.of_nat (length (spaced sentences)) < chunk_size)%Z
    \/ length sentences = 1) ->
   emitted = [join_space sentences])
  /\ (length emitted = 1 ->
      (Z.of_nat (length (spaced sentences)) < chunk_size)%Z
      \/ length sentences = 1).
Proof.
  intros sentences emitted Hne.
  pose proof (split_sentences_clean full_text) as Hc. fold sentences in Hc.
  split.
  - intros [Hfit | Hone].
    + unfold emitted, chunk_sentences.
      rewrite chunk_loop_fits by (simpl; lia).
      rewrite chunk_finish_nonempty;
        cbn [current_chunk chunks chunker_init app].
      * now rewrite strip_spaced.
      * intros E. now apply spaced_nil_inv in E.
    + destruct sentences as [|s [|s2 r]]; [contradiction | | discriminate].
      unfold emitted, chunk_sentences. cbn [chunk_loop fold_left].
      assert (R : chunk_step chunk_size chunker_init s
                  = mkChunker [] (s ++ [SP]) [s]).
      { destruct (chunk_step_cases chunk_size chunker_init s)
          as [[_ R] | [(_ & Hn & _) | (_ & _ & R)]];
          [exact R | now destruct Hn | exact R]. }
      rewrite R, chunk_finish_nonempty by apply snoc_space_nonempty.
      cbn [current_chunk chunks app].
      rewrite <- spaced_single. now rewrite strip_spaced.
  - intros Hlen.
    destruct (chunk_sentences_packed chunk_size sentences Hc)
      as (prev & ws & P & Es & Ee).
    fold emitted in Ee. rewrite Ee, length_map in Hlen.
    destruct ws as [|w [|w2 ws]]; [discriminate | | discriminate].
    destruct (packed_single _ _ _ P) as (Eov & _ & Hfit).
    simpl in Es. rewrite app_nil_r in Es. unfold fits_or_single in Hfit.
    now rewrite Eov, Es in Hfit.
Qed.

Lemma X11_single_chunk_witness :
  let sentences := split_sentences (lit "A. B? C! D") in
  sentences <> []
  /\ (Z.of_nat (length (spaced sentences)) < 10)%Z
  /\ chunk_sentences 10 sentences = [lit "A. B? C!"].
Proof.
  intros sentences.
  assert (Hne : sentences <> []) by discriminate.
  assert (Hfit : (Z.of_nat (length (spaced sentences)) < 10)%Z) by reflexivity.
  split; [exact Hne|]. split; [exact Hfit|].
  exact (proj1 (X11_single_chunk 10 (lit "A. B? C! D") Hne) (or_introl Hfit)).
Defined.

(** ** Chunks already emitted *)

Lemma chunk_step_frame (c : Z) (pre : list pystr) (st : chunker) (sent : pystr) :
  chunk_step c (mkChunker (pre ++ chunks st) (current_chunk st)
                          (sentence_buffer st)) sent
  = mkChunker (pre ++ chunks (chunk_step c st sent))
              (current_chunk (chunk_step c st sent))
              (sentence_buffer (chunk_step c st sent)).
Proof.
  unfold chunk_step. cbn [chunks current_chunk sentence_buffer].
  destruct (_ <? _)%Z; [reflexivity|].
  destruct (is_nonempty (current_chunk st)); [|reflexivity].
  destruct (create_overlap _ _) as [oc os].
  cbn [chunks current_chunk sentence_buffer]. now rewrite <- app_assoc.
Qed.

Lemma chunk_loop_frame (c : Z) (pre : list pystr) (sentences : list pystr) :
  forall st,
    chunk_loop c (mkChunker (pre ++ chunks st) (current_chunk st)
                            (sentence_buffer st)) sentences
    = mkChunker (pre ++ chunks (chunk_loop c st sentences))
                (current_chunk (chunk_loop c st sentences))
                (sentence_buffer (chunk_loop c st sentences)).
Proof.
  induction sentences as [|s r IH]; intros st; [reflexivity|].
  cbn [chunk_loop fold_left]. fold (chunk_loop c).
  unfold chunk_loop in *. now rewrite chunk_step_frame, IH.
Qed.

Lemma chunk_finish_frame (pre : list pystr) (st : chunker) :
  chunk_finish (mkChunker (pre ++ chunks st) (current_chunk st)
                          (sentence_buffer st))
  = pre ++ chunk_finish st.
Proof.
  unfold chunk_finish. cbn [chunks current_chunk].
  destruct (is_nonempty (current_chunk st)); [apply eq_sym, app_assoc | reflexivity].
Qed.

Lemma chunk_step_text_nonempty (c : Z) (st : chunker) (sent : pystr) :
  current_chunk (chunk_step c st sent) <> [].
Proof.
  destruct (chunk_step_cases c st sent)
    as [[_ R] | [(_ & _ & d & ov & _ & _ & _ & R) | (_ & _ & R)]];
    rewrite R; cbn [current_chunk]; intros E.
  - apply app_eq_nil in E as [_ E]. apply app_eq_nil in E as [_ E]. discriminate.
  - apply app_eq_nil in E as [_ E]. apply app_eq_nil in E as [_ E]. discriminate.
  - apply app_eq_nil in E as [_ E]. discriminate.
Qed.

Lemma chunk_loop_text_nonempty (c : Z) (sentences : list pystr) :
  forall st, sentences <> [] ->
    current_chunk (chunk_loop c st sentences) <> [].
Proof.
  induction sentences as [|s r IH]; intros st Hne; [contradiction|].
  cbn [chunk_loop fold_left]. fold (chunk_loop c (chunk_step c st s) r).
  destruct r as [|s2 r]; [apply chunk_step_text_nonempty|].
  apply IH. discriminate.
Qed.

Lemma chunk_step_grows (c : Z) (st : chunker) (sent : pystr) :
  exists more, chunks (chunk_step c st sent) = chunks st ++ more.
Proof.
  destruct (chunk_step_cases c st sent)
    as [[_ R] | [(_ & _ & d & ov & _ & _ & _ & R) | (_ & _ & R)]];
    rewrite R; cbn [chunks].
  - exists []. now rewrite app_nil_r.
  - eauto.
  - exists []. now rewrite app_nil_r.
Qed.

Lemma chunk_loop_grows (c : Z) (sentences : list pystr) :
  forall st, exists more,
    chunks (chunk_loop c st sentences) = chunks st ++ more.
Proof.
  induction sentences as [|s r IH]; intros st.
  - exists []. simpl. now rewrite app_nil_r.
  - cbn [chunk_loop fold_left]. fold (chunk_loop c (chunk_step c st s) r).
    destruct (IH (chunk_step c st s)) as (m2 & E2).
    destruct (chunk_step_grows c st s) as (m1 & E1).
    exists (m1 ++ m2). now rewrite E2, E1, app_assoc.
Qed.

(** X12. Sentences added at the end of a list change at most the last
    chunk: the chunks of the shorter list, but the last one, begin the
    chunks of the longer list.  This holds for any list of strings. *)
Theorem X12_chunks_are_stable (chunk_size : Z) (sentences more : list pystr) :
  exists later,
    chunk_sentences chunk_size (sentences ++ more)
    = removelast (chunk_sentences chunk_size sentences) ++ later.
Proof.
  unfold chunk_sentences, chunk_loop. rewrite fold_left_app.
  fold (chunk_loop chunk_size chunker_init sentences).
  set (st := chunk_loop chunk_size chunker_init sentences).
  fold (chunk_loop chunk_size st more).
  assert (E : removelast (chunk_finish st) = chunks st).
  { destruct sentences as [|s r]; [reflexivity|].
    destruct (chunk_finish_cases st) as [[He _] | [_ R]].
    - exfalso. revert He. apply chunk_loop_text_nonempty. discriminate.
    - rewrite R. apply removelast_last. }
  rewrite E. destruct (chunk_loop_grows chunk_size more st) as (m & Em).
  destruct (chunk_finish_cases (chunk_loop chunk_size st more))
    as [[_ R] | [_ R]]; rewrite R, Em.
  - now exists m.
  - eexists. now rewrite <- app_assoc.
Qed.

(** X13. A first sentence that does not fit the target on its own
    ([len(s) + 1 >= C]) is emitted as a chunk of its own, and nothing of it
    is carried over: the rest of the list is chunked as if it stood
    alone. *)
Theorem X13_oversized_first_sentence (chunk_size : Z) (s : pystr)
    (rest : list pystr) :
  clean s = true ->
  (chunk_size <= Z.of_nat (length s) + 1)%Z ->
  chunk_sentences chunk_size (s :: rest)
  = s :: chunk_sentences chunk_size rest.
Proof.
  intros Hs Hbig.
  assert (R0 : chunk_step chunk_size chunker_init s
               = mkChunker [] (s ++ [SP]) [s]).
  { destruct (chunk_step_cases chunk_size chunker_init s)
      as [[_ R] | [(_ & Hn & _) | (_ & _ & R)]];
      [exact R | now destruct Hn | exact R]. }
  assert (Hstrip : strip (s ++ [SP]) = s).
  { rewrite <- spaced_single. apply strip_spaced; [discriminate|].
    simpl. now rewrite Hs. }
  unfold chunk_sentences. cbn [chunk_loop fold_left]. rewrite R0.
  destruct rest as [|s2 r].
  - cbn [fold_left]. rewrite chunk_finish_nonempty by apply snoc_space_nonempty.
    cbn [current_chunk chunks app]. now rewrite Hstrip.
  - cbn [chunk_loop fold_left].
    assert (R1 : chunk_step chunk_size chunker_init s2
                 = mkChunker [] (s2 ++ [SP]) [s2]).
    { destruct (chunk_step_cases chunk_size chunker_init s2)
        as [[_ R] | [(_ & Hn & _) | (_ & _ & R)]];
        [exact R | now destruct Hn | exact R]. }
    assert (R2 : chunk_step chunk_size (mkChunker [] (s ++ [SP]) [s]) s2
                 = mkChunker ([s] ++ []) (s2 ++ [SP]) [s2]).
    { destruct (chunk_step_cases chunk_size (mkChunker [] (s ++ [SP]) [s]) s2)
        as [[Hlt _] | [(_ & _ & d & ov & E & B & _ & R) | (_ & He & _)]];
        cbn [chunks current_chunk sentence_buffer] in *.
      - rewrite length_app in Hlt. cbn [length] in Hlt. lia.
      - rewrite R, Hstrip.
        assert (ov = []) as ->.
        { destruct (within_budget_length _ _ B) as [Eo | Hlt]; [exact Eo|].
          destruct ov as [|x ov]; [reflexivity|]. exfalso.
          assert (x = s /\ ov = []) as [-> ->].
          { destruct d as [|y [|z d]]; simpl in E.
            - now injection E as <- <-.
            - injection E as _ E. now destruct ov.
            - injection E as _ E. now destruct d. }
          rewrite spaced_single, length_app in Hlt. cbn [length] in Hlt.
          assert (chunk_size / 4 <= Z.max chunk_size 0)%Z.
          { destruct (Z.le_gt_cases 0 chunk_size) as [Hp | Hn].
            - pose proof (Z.div_le_upper_bound chunk_size 4 chunk_size
                            ltac:(lia) ltac:(lia)). lia.
            - pose proof (Z.div_lt_upper_bound chunk_size 4 0
                            ltac:(lia) ltac:(lia)). lia. }
          lia. }
        reflexivity.
      - now destruct s. }
    rewrite R2, R1.
    fold (chunk_loop chunk_size (mkChunker ([s] ++ []) (s2 ++ [SP]) [s2]) r).
    fold (chunk_loop chunk_size (mkChunker [] (s2 ++ [SP]) [s2]) r).
    pose proof (chunk_loop_frame chunk_size [s] r
                  (mkChunker [] (s2 ++ [SP]) [s2])) as F.
    cbn [chunks current_chunk sentence_buffer] in F.
    rewrite F. now rewrite chunk_finish_frame.
Qed.

Lemma X13_oversized_first_sentence_witness :
  clean (lit "A long first sentence.") = true
  /\ (10 <= Z.of_nat (length (lit "A long first sentence.")) + 1)%Z
  /\ chunk_sentences 10 [lit "A long first sentence."; lit "B."; lit "C."]
     = lit "A long first sentence." :: chunk_sentences 10 [lit "B."; lit "C."].
Proof.
  split; [reflexivity|]. split; [vm_compute; discriminate|].
  apply X13_oversized_first_sentence; [reflexivity | vm_compute; discriminate].
Defined.

(** ** The batch as a whole *)

Lemma process_file_adds (chunk_size : Z) (docs : list pystr) (st : stats)
    (f : pdf_file) :
  process_file chunk_size (docs, st) f
  = (docs ++ file_chunks chunk_size f,
     mkStats (files st)
             (chunk_count st + length (file_chunks chunk_size f))
             (total_chars st + file_chars f)).
Proof.
  destruct f as [pages|]; [reflexivity|]. destruct st as [n a b]. simpl.
  now rewrite app_nil_r, !Nat.add_0_r.
Qed.

Lemma fold_process_file (chunk_size : Z) (pdf_files : list pdf_file) :
  forall docs st,
    fold_left (process_file chunk_size) pdf_files (docs, st)
    = (docs ++ flat_map (file_chunks chunk_size) pdf_files,
       mkStats (files st)
               (chunk_count st
                + length (flat_map (file_chunks chunk_size) pdf_files))
               (total_chars st + list_sum (map file_chars pdf_files))).
Proof.
  induction pdf_files as [|f r IH]; intros docs st.
  - destruct st as [n a b]. simpl. now rewrite app_nil_r, !Nat.add_0_r.
  - cbn [fold_left]. rewrite process_file_adds, IH.
    cbn [files chunk_count total_chars flat_map map list_sum].
    rewrite length_app, <- !app_assoc, <- !Nat.add_assoc. reflexivity.
Qed.

(** X14. [load_pdfs] raises [FileNotFoundError] exactly when there is no
    PDF file.  Otherwise the collection is the concatenation, in the order
    of the files, of the chunks of every file that could be read (no chunk
    spans two files), [stats['files']] is the number of files, failed ones
    included, [stats['chunks']] is the length of the collection, and
    [stats['total_chars']] is the sum of the lengths of the normalized
    texts. *)
Theorem X14_batch_structure (pdf_files : list pdf_file) (chunk_size : Z) :
  (load_pdfs pdf_files chunk_size = inl FileNotFoundError <-> pdf_files = [])
  /\ (pdf_files <> [] ->
      let docs := flat_map (file_chunks chunk_size) pdf_files in
      load_pdfs pdf_files chunk_size
      = inr (docs,
             mkStats (length pdf_files) (length docs)
                     (list_sum (map file_chars pdf_files)))).
Proof.
  split.
  - destruct pdf_files; simpl; split; congruence.
  - intros Hne docs. destruct pdf_files as [|f r]; [contradiction|].
    unfold load_pdfs. now rewrite fold_process_file.
Qed.

Lemma X14_batch_structure_witness :
  [Some [lit "A. B. C. D"]; None; Some [lit "One.  Two. x"]] <> []
  /\ load_pdfs [Some [lit "A. B. C. D"]; None; Some [lit "One.  Two. x"]] 100
     = inr ([lit "A. B. C."; lit "One. Two."], mkStats 3 2 21).
Proof.
  split; [discriminate|].
  exact (proj2 (X14_batch_structure
                  [Some [lit "A. B. C. D"]; None; Some [lit "One.  Two. x"]]
                  100) ltac:(discriminate)).
Defined.

(** ** Every chunk is clean *)

Lemma chunk_step_chunks_clean (c : Z) (st : chunker) (sent : pystr) :
  text_inv st -> forallb clean (sentence_buffer st) = true ->
  forallb clean (chunks st) = true ->
  forallb clean (chunks (chunk_step c st sent)) = true.
Proof.
  intros Ht Hb Hc.
  destruct (chunk_step_cases c st sent)
    as [[_ R] | [(_ & Hne & d & ov & _ & _ & _ & R) | (_ & _ & R)]];
    rewrite R; cbn [chunks]; [exact Hc | | exact Hc].
  rewrite forallb_app, Hc. cbn [forallb andb].
  rewrite emitted_is_join by assumption.
  rewrite join_space_clean; [reflexivity | | exact Hb].
  now apply text_nonempty_buffer.
Qed.

Lemma chunk_sentences_clean (c : Z) (sentences : list pystr) :
  forallb clean sentences = true ->
  forallb clean (chunk_sentences c sentences) = true.
Proof.
  intros Hs. unfold chunk_sentences.
  assert (H : forall st,
            text_inv st -> forallb clean (sentence_buffer st) = true ->
            forallb clean (chunks st) = true ->
            forallb clean (chunk_finish (chunk_loop c st sentences)) = true).
  { induction sentences as [|s r IH]; intros st Ht Hb Hc.
    - simpl. destruct (chunk_finish_cases st) as [[_ R] | [Hne R]]; rewrite R;
        [exact Hc|].
      rewrite forallb_app, Hc. cbn [forallb andb].
      rewrite emitted_is_join by assumption.
      rewrite join_space_clean; [reflexivity | | exact Hb].
      now apply text_nonempty_buffer.
    - simpl in Hs. apply andb_prop in Hs as [Hs1 Hs2].
      cbn [chunk_loop fold_left]. apply (IH Hs2).
      + now apply chunk_step_text_inv.
      + now apply chunk_step_clean.
      + now apply chunk_step_chunks_clean. }
  now apply H.
Qed.

Lemma file_chunks_clean (c : Z) (f : pdf_file) :
  forallb clean (file_chunks c f) = true.
Proof.
  destruct f as [pages|]; [|reflexivity].
  apply chunk_sentences_clean, split_sentences_clean.
Qed.

(** X15. Whatever the target and the files, every chunk that [load_pdfs]
    returns is non-empty, begins and ends with a character that is not
    whitespace, and is left unchanged by [strip]. *)
Theorem X15_loaded_chunks_are_clean (pdf_files : list pdf_file)
    (chunk_size : Z) (docs : list pystr) (st : stats) (c : pystr) :
  load_pdfs pdf_files chunk_size = inr (docs, st) ->
  In c docs ->
  c <> [] /\ starts_ok c = true /\ ends_ok c = true /\ strip c = c.
Proof.
  intros Hl Hin.
  assert (Hc : clean c = true).
  { destruct pdf_files as [|f r]; [discriminate|].
    unfold load_pdfs in Hl. rewrite fold_process_file in Hl.
    injection Hl as <- _.
    change (In c (flat_map (file_chunks chunk_size) (f :: r))) in Hin.
    apply in_flat_map in Hin as (g & _ & Hin).
    pose proof (file_chunks_clean chunk_size g) as F.
    rewrite forallb_forall in F. now apply F. }
  split; [now apply clean_nonempty|].
  pose proof (strip_clean c Hc). apply andb_prop in Hc as [-> ->]. auto.
Qed.

Lemma X15_loaded_chunks_are_clean_witness :
  load_pdfs [Some [lit "A. B. C. D"]] 100
  = inr ([lit "A. B. C."], mkStats 1 1 10)
  /\ In (lit "A. B. C.") [lit "A. B. C."]
  /\ lit "A. B. C." <> [] /\ starts_ok (lit "A. B. C.") = true
  /\ ends_ok (lit "A. B. C.") = true /\ strip (lit "A. B. C.") = lit "A. B. C.".
Proof.
  assert (H1 : load_pdfs [Some [lit "A. B. C. D"]] 100
               = inr ([lit "A. B. C."], mkStats 1 1 10)) by reflexivity.
  assert (H2 : In (lit "A. B. C.") [lit "A. B. C."]) by (left; reflexivity).
  split; [exact H1|]. split; [exact H2|].
  exact (X15_loaded_chunks_are_clean _ _ _ _ _ H1 H2).
Defined.

(** ** The name of the content file *)

Lemma occurs_cons (old : pystr) (c : ascii) (s : pystr) :
  occurs old (c :: s) = starts_with old (c :: s) || occurs old s.
Proof. reflexivity. Qed.

Lemma replace_scan_cons (o : ascii) (old' new : pystr) (c : ascii) (s : pystr) :
  replace_scan o old' new (c :: s)
  = if starts_with (o :: old') (c :: s)
    then new ++ replace_scan o old' new (skipn (length old') s)
    else c :: replace_scan o old' new s.
Proof.
  simp replace_scan. destruct (starts_with (o :: old') (c :: s)); reflexivity.
Qed.

Lemma replace_scan_nil (o : ascii) (old' new : pystr) :
  replace_scan o old' new [] = [].
Proof. now simp replace_scan. Qed.

Lemma replace_scan_no_occurrence (o : ascii) (old' new s : pystr) :
  occurs (o :: old') s = false -> replace_scan o old' new s = s.
Proof.
  induction s as [|c s IH]; intros H; [apply replace_scan_nil|].
  rewrite occurs_cons in H. apply orb_false_elim in H as [H1 H2].
  now rewrite replace_scan_cons, H1, IH.
Qed.

Lemma replace_scan_length (o : ascii) (old' new : pystr) :
  S (length old') < length new ->
  forall s,
    length s <= length (replace_scan o old' new s)
    /\ (occurs (o :: old') s = true ->
        length s < length (replace_scan o old' new s)).
Proof.
  intros Hlen s.
  assert (H : forall n s, length s <= n ->
            length s <= length (replace_scan o old' new s)
            /\ (occurs (o :: old') s = true ->
                length s < length (replace_scan o old' new s))).
  { clear s. induction n as [|n IH]; intros s Hn.
    - destruct s; [|simpl in Hn; lia]. rewrite replace_scan_nil.
      split; [reflexivity | discriminate].
    - destruct s as [|c s]; [rewrite replace_scan_nil; split;
                               [reflexivity | discriminate]|].
      rewrite replace_scan_cons, occurs_cons.
      destruct (starts_with (o :: old') (c :: s)) eqn:Es.
      + destruct (IH (skipn (length old') s)) as [Hle _].
        { rewrite length_skipn. simpl in Hn. lia. }
        rewrite length_skipn in Hle. rewrite length_app. simpl. split; intros; lia.
      + destruct (IH s ltac:(simpl in Hn; lia)) as [Hle Hlt]. simpl.
        split; [lia|]. intros Ho. specialize (Hlt Ho). lia. }
  now apply (H (length s)).
Qed.

(** An occurrence of ".json" that begins inside [t] lies inside [t]: it
    cannot run into a ".json" that follows, since the dot occurs in the
    pattern at its first place only. *)
Lemma json_no_straddle (t : pystr) :
  t <> [] ->
  starts_with (lit ".json") (t ++ lit ".json") = true ->
  starts_with (lit ".json") t = true.
Proof.
  intros Hne.
  destruct t as [|a [|b [|c [|d [|e t]]]]]; [contradiction | | | | |];
    cbn [app lit list_ascii_of_string starts_with];
    repeat match goal with
           | |- context [Ascii.eqb ?x ?y] =>
               lazymatch y with
               | Ascii _ _ _ _ _ _ _ _ => fail
               | _ => destruct (Ascii.eqb x y)
               end
           end;
    cbn; congruence.
Qed.

Lemma content_file_of_stem (stem : pystr) :
  occurs (lit ".json") stem = false ->
  content_file_of (stem ++ lit ".json") = stem ++ lit "_content.json".
Proof.
  unfold content_file_of.
  change (str_replace (lit ".json") (lit "_content.json"))
    with (replace_scan "."%char (lit "json") (lit "_content.json")).
  induction stem as [|c stem IH]; intros H; [reflexivity|].
  rewrite occurs_cons in H. apply orb_false_elim in H as [H1 H2].
  cbn [app]. rewrite replace_scan_cons.
  destruct (starts_with ("."%char :: lit "json") ((c :: stem) ++ lit ".json"))
    eqn:Es.
  - apply json_no_straddle in Es; [|discriminate].
    change ("."%char :: lit "json") with (lit ".json") in H1. congruence.
  - cbn [app] in Es. rewrite Es. now rewrite IH.
Qed.

(** X16. The content file has the name of the output file exactly when
    [".json"] does not occur in that name: the dump of the chunks is then
    written to the output path itself.  When the name is a stem without
    [".json"] followed by [".json"], the content file is the stem followed
    by ["_content.json"]. *)
Theorem X16_content_file_name (output_file stem : pystr) :
  (content_file_of output_file = output_file
   <-> occurs (lit ".json") output_file = false)
  /\ (occurs (lit ".json") stem = false ->
      content_file_of (stem ++ lit ".json") = stem ++ lit "_content.json").
Proof.
  split; [|apply content_file_of_stem].
  unfold content_file_of.
  change (str_replace (lit ".json") (lit "_content.json"))
    with (replace_scan "."%char (lit "json") (lit "_content.json")).
  split.
  - intros E. destruct (occurs (lit ".json") output_file) eqn:Ho; [|reflexivity].
    destruct (replace_scan_length "."%char (lit "json") (lit "_content.json")
                ltac:(simpl; lia) output_file) as [_ Hlt].
    specialize (Hlt Ho). rewrite E in Hlt. lia.
  - apply replace_scan_no_occurrence.
Qed.

Lemma X16_content_file_name_witness :
  occurs (lit ".json") (lit "out/benchmark.v2") = false
  /\ content_file_of (lit "out/benchmark.v2" ++ lit ".json")
     = lit "out/benchmark.v2" ++ lit "_content.json".
Proof.
  split; [reflexivity|].
  exact (proj2 (X16_content_file_name [] (lit "out/benchmark.v2")) eq_refl).
Defined.

(** ** Documents without chunk *)

Lemma split_sentences_pairs (s : pystr) :
  split_sentences s = map strip (pair_up (re_split s)).
Proof.
  unfold split_sentences.
  rewrite clean_sentences_of_pairs. apply pair_up_kept, re_split_shape.
Qed.








(** ** Difficulty and command line *)

Lemma pystr_eqb_eq (a b : pystr) : pystr_eqb a b = true <-> a = b.
Proof.
  revert b. induction a as [|x a IH]; intros [|y b]; simpl;
    try (split; congruence).
  rewrite andb_true_iff, Ascii.eqb_eq, IH. split.
  - now intros [-> ->].
  - intros E. now injection E.
Qed.

Lemma existsb_pystr_in (d : pystr) (l : list pystr) :
  existsb (pystr_eqb d) l = true <-> In d l.
Proof.
  rewrite existsb_exists. split.
  - intros (x & Hx & E). apply pystr_eqb_eq in E. now subst.
  - intros H. exists d. split; [exact H | now apply pystr_eqb_eq].
Qed.

(** X18. Whatever string is given as difficulty, the target fixed by
    [generate_dataset] is 400, 900, 1300 or 1000, so the overlap budget is
    at least 100 and the degenerate targets never arise there; the list of
    question types is not empty (its first item is read at line 200); and a
    string that is none of the four names is treated as "mixed". *)
Theorem X18_difficulty_settings (difficulty : pystr) :
  In (target_size (configure difficulty)) [400; 900; 1300; 1000]%Z
  /\ (100 <= target_size (configure difficulty) / 4)%Z
  /\ question_types (configure difficulty) <> []
  /\ (~ In difficulty valid_difficulties ->
      configure difficulty = configure (lit "mixed")).
Proof.
  unfold configure.
  destruct (pystr_eqb difficulty (lit "easy")) eqn:E1;
    [|destruct (pystr_eqb difficulty (lit "medium")) eqn:E2;
      [|destruct (pystr_eqb difficulty (lit "hard")) eqn:E3]];
    cbn [target_size question_types].
  1-3: split; [simpl; tauto|]; split; [vm_compute; discriminate|];
       split; [discriminate|]; intros H; exfalso; apply H;
       apply existsb_pystr_in; unfold valid_difficulties; cbn [existsb];
       rewrite ?E1, ?E2, ?E3, ?orb_true_r; reflexivity.
  split; [simpl; tauto|]. split; [vm_compute; discriminate|].
  split; [discriminate | reflexivity].
Qed.

Lemma X18_difficulty_settings_witness :
  ~ In (lit "Hard") valid_difficulties
  /\ configure (lit "Hard") = configure (lit "mixed").
Proof.
  assert (H : ~ In (lit "Hard") valid_difficulties).
  { intros H. apply existsb_pystr_in in H. discriminate. }
  split; [exact H|].
  exact (proj2 (proj2 (proj2 (X18_difficulty_settings (lit "Hard")))) H).
Defined.

(** X19. The command line.  With fewer than two items in [sys.argv] the
    program exits with status 1.  A fourth item that [int] rejects raises
    [ValueError], even when the difficulty given after it is not a valid
    one.  [generate_dataset] runs only with a difficulty among "easy",
    "medium", "hard" and "mixed", on the directory [argv[1]]; the output
    file, the number of questions and the difficulty that are not given
    are "benchmark_dataset.json", 20 and "mixed". *)
Theorem X19_command_line (pdfs_in : pystr -> list pdf_file)
    (py_int : pystr -> option Z) (argv : list pystr) :
  (length argv < 2 -> main pdfs_in py_int argv = Exit 1)
  /\ (4 <= length argv -> py_int (nth 3 argv []) = None ->
      main pdfs_in py_int argv = ValueError)
  /\ (forall o, main pdfs_in py_int argv = Generated o ->
        2 <= length argv
        /\ exists output_file num_questions difficulty,
             o = generate_dataset pdfs_in (nth 1 argv []) output_file
                                  num_questions difficulty
             /\ In difficulty valid_difficulties
             /\ (length argv <= 2 -> output_file = lit "benchmark_dataset.json")
             /\ (length argv <= 3 -> num_questions = 20%Z)
             /\ (length argv <= 4 -> difficulty = lit "mixed")).
Proof.
  unfold main. split; [|split].
  - intros H. apply Nat.ltb_lt in H. now rewrite H.
  - intros H Hi.
    destruct (Nat.ltb_spec (length argv) 2) as [|_]; [lia|].
    destruct (Nat.ltb_spec 3 (length argv)) as [_|]; [|lia].
    now rewrite Hi.
  - intros o.
    destruct (Nat.ltb_spec (length argv) 2) as [|H2]; [discriminate|].
    destruct (if 3 <? length argv then py_int (nth 3 argv []) else Some 20%Z)
      as [n|] eqn:En; [|discriminate].
    destruct (existsb _ valid_difficulties) eqn:Ev; cbn [negb]; [|discriminate].
    intros E. injection E as <-. split; [exact H2|].
    eexists _, n, _. split; [reflexivity|].
    split; [now apply existsb_pystr_in|].
    split; [|split]; intros Hl.
    + destruct (Nat.ltb_spec 2 (length argv)); [lia | reflexivity].
    + destruct (Nat.ltb_spec 3 (length argv)); [lia | congruence].
    + destruct (Nat.ltb_spec 4 (length argv)); [lia | reflexivity].
Qed.

Lemma X19_command_line_witness :
  let pdfs_in := fun _ : pystr => [Some [lit "A. B. C. D"]] in
  let py_int := fun _ : pystr => @None Z in
  let argv := [lit "gen.py"; lit "pdfs"; lit "q.json"; lit "ten"; lit "bogus"] in
  4 <= length argv
  /\ py_int (nth 3 argv []) = None
  /\ main pdfs_in py_int argv = ValueError.
Proof.
  intros pdfs_in py_int argv.
  assert (H : 4 <= length argv) by (simpl; lia).
  split; [exact H|]. split; [reflexivity|].
  exact (proj1 (proj2 (X19_command_line pdfs_in py_int argv)) H eq_refl).
Defined.

(** ** The overlap is the longest suffix within the budget *)

Lemma spaced_length_app (a b : list pystr) :
  length (spaced (a ++ b)) = length (spaced a) + length (spaced b).
Proof. now rewrite spaced_app, length_app. Qed.

(** X20. The overlap built when a chunk is closed is the longest suffix of
    the sentence buffer whose text, every sentence followed by a space, is
    shorter than the budget: it is a suffix of the buffer, its text is the
    overlap text, it is empty or within the budget, and no suffix within
    the budget has more sentences. *)
Theorem X20_overlap_is_longest_suffix (overlap_size : Z)
    (buffer : list pystr) :
  let ov := snd (create_overlap overlap_size buffer) in
  fst (create_overlap overlap_size buffer) = spaced ov
  /\ (exists dropped, buffer = dropped ++ ov)
  /\ (ov = [] \/ (Z.of_nat (length (spaced ov)) < overlap_size)%Z)
  /\ (forall dropped' ov',
         buffer = dropped' ++ ov' ->
         (Z.of_nat (length (spaced ov')) < overlap_size)%Z ->
         length ov' <= length ov).
Proof.
  destruct (create_overlap_spec overlap_size buffer)
    as (dropped & ov & E & R & B & S).
  rewrite R. cbn [fst snd]. split; [reflexivity|].
  split; [now exists dropped|]. split; [now apply within_budget_length|].
  intros d' ov' E' Hlt.
  destruct (Nat.le_gt_cases (length ov') (length ov)) as [Hle | Hgt];
    [exact Hle | exfalso].
  rewrite E in E'. apply app_eq_app in E' as (l & [[E1 E2] | [E1 E2]]).
  - destruct (exists_last (l := l)) as (k & s & ->).
    { intros ->. simpl in E2. subst ov'. lia. }
    rewrite app_assoc in E1. specialize (S _ _ E1).
    rewrite E2, !spaced_length_app, spaced_single, length_app in Hlt.
    cbn [length] in Hlt. lia.
  - rewrite E2, length_app in Hgt. lia.
Qed.

Lemma X20_overlap_is_longest_suffix_witness :
  let buffer := [lit "aaaaaaaaaaaa"; lit "bbb"; lit "cc"] in
  buffer = [lit "aaaaaaaaaaaa"; lit "bbb"] ++ [lit "cc"]
  /\ (Z.of_nat (length (spaced [lit "cc"])) < 10)%Z
  /\ length [lit "cc"] <= length (snd (create_overlap 10 buffer)).
Proof.
  intros buffer.
  assert (H1 : buffer = [lit "aaaaaaaaaaaa"; lit "bbb"] ++ [lit "cc"])
    by reflexivity.
  assert (H2 : (Z.of_nat (length (spaced [lit "cc"])) < 10)%Z) by reflexivity.
  split; [exact H1|]. split; [exact H2|].
  exact (proj2 (proj2 (proj2 (X20_overlap_is_longest_suffix 10 buffer)))
           _ _ H1 H2).
Defined.

(** ** Sentences and chunks end with a terminator *)

Lemma drop_while_app_stop (p : ascii -> bool) (a r : pystr) :
  match r with [] => False | c :: _ => p c = false end ->
  drop_while p (a ++ r) = drop_while p a ++ r.
Proof.
  intros Hr. induction a as [|c a IH]; simpl.
  - destruct r as [|d r]; [contradiction|]. simpl. now rewrite Hr.
  - destruct (p c); [exact IH | reflexivity].
Qed.

(** A text and a separator after it, stripped: the text without its
    leading whitespace, and the terminators. *)
Lemma strip_pair (a terms w : pystr) :
  terms <> [] -> forallb is_terminator terms = true -> ws_run w = true ->
  strip (a ++ terms ++ w) = lstrip a ++ terms.
Proof.
  intros Hne Ht Hw. unfold strip, rstrip, lstrip.
  rewrite drop_while_app_stop.
  2:{ destruct terms as [|c terms]; [contradiction|]. simpl in *.
      apply andb_prop in Ht as [Hc _]. now apply terminator_not_space. }
  rewrite app_assoc, rev_app_distr.
  rewrite (drop_while_all isspace (rev w) _ (forallb_rev _ _ Hw)).
  pose proof (terminators_end (drop_while isspace a) terms Hne Ht) as He.
  unfold ends_ok in He. apply starts_ok_lstrip in He. unfold lstrip in He.
  rewrite He. apply rev_involutive.
Qed.

Lemma ends_with_terminator_app (x terms : pystr) :
  terms <> [] -> forallb is_terminator terms = true ->
  ends_with_terminator (x ++ terms) = true.
Proof.
  intros Hne Ht. unfold ends_with_terminator. rewrite rev_app_distr.
  apply forallb_rev in Ht. destruct (rev terms) as [|c r] eqn:E.
  - apply (f_equal (@rev ascii)) in E. rewrite rev_involutive in E.
    now destruct Hne.
  - simpl in *. now apply andb_prop in Ht as [-> _].
Qed.

Lemma ends_with_terminator_app_r (x y : pystr) :
  y <> [] -> ends_with_terminator (x ++ y) = ends_with_terminator y.
Proof.
  intros Hne. unfold ends_with_terminator. rewrite rev_app_distr.
  destruct (rev y) as [|c r] eqn:E; [|reflexivity].
  apply (f_equal (@rev ascii)) in E. rewrite rev_involutive in E.
  now destruct Hne.
Qed.

Lemma has_boundary_suffix (u v : pystr) :
  has_boundary (u ++ v) = false -> has_boundary v = false.
Proof.
  induction u as [|c u IH]; [auto|]. intros H. apply IH.
  now apply has_boundary_tail in H.
Qed.

Lemma has_boundary_app (x y : pystr) :
  has_boundary x = false -> has_boundary y = false ->
  starts_with_space y = false -> has_boundary (x ++ y) = false.
Proof.
  intros Hx Hy Hs. induction x as [|c x IH]; [exact Hy|].
  pose proof (has_boundary_tail c x Hx) as Hx'. specialize (IH Hx').
  destruct x as [|d x].
  - destruct y as [|e y]; [reflexivity|]. cbn [app].
    rewrite has_boundary_cons, Hy. simpl in Hs. rewrite Hs.
    now rewrite andb_false_r.
  - cbn [app] in *. rewrite has_boundary_cons in *.
    apply orb_false_elim in Hx as [H1 _]. now rewrite H1, IH.
Qed.

Lemma has_boundary_terminators (terms : pystr) :
  forallb is_terminator terms = true -> has_boundary terms = false.
Proof.
  induction terms as [|c t IH]; [reflexivity|]. cbn [forallb].
  intros H. apply andb_prop in H as [_ Ht]. specialize (IH Ht).
  destruct t as [|d t]; [reflexivity|]. rewrite has_boundary_cons, IH.
  cbn [forallb] in Ht. apply andb_prop in Ht as [Hd _].
  now rewrite (terminator_not_space d Hd), andb_false_r.
Qed.

Lemma stripped_pair_ok (a b : pystr) :
  has_boundary a = false -> is_separator b = true ->
  sentence_ok (strip (a ++ b)) = true.
Proof.
  intros Ha Hb.
  destruct (separator_parts b Hb) as (terms & w & -> & Hne & Ht & _ & Hw).
  rewrite strip_pair by assumption. unfold sentence_ok.
  rewrite ends_with_terminator_app by assumption.
  rewrite has_boundary_app; [reflexivity | | |].
  - apply (has_boundary_suffix (take_while isspace a)).
    unfold lstrip. now rewrite take_drop_while.
  - now apply has_boundary_terminators.
  - destruct terms as [|c terms]; [contradiction|]. simpl in *.
    apply andb_prop in Ht as [Hc _]. now apply terminator_not_space.
Qed.

Lemma pair_up_sentences_ok (l : list pystr) :
  split_shape l = true -> forallb sentence_ok (map strip (pair_up l)) = true.
Proof.
  assert (H : forall n l, length l <= n -> split_shape l = true ->
                forallb sentence_ok (map strip (pair_up l)) = true).
  { clear l. induction n as [|n IH]; intros l Hl Hs.
    - destruct l; [reflexivity | simpl in Hl; lia].
    - destruct l as [|a [|b rest]]; [reflexivity | reflexivity |].
      cbn [split_shape] in Hs.
      apply andb_prop in Hs as [Ha Hs]. apply andb_prop in Hs as [Hs Hr].
      apply andb_prop in Hs as [Hs _]. apply andb_prop in Hs as [Hb _].
      apply negb_true_iff in Ha.
      cbn [pair_up map forallb].
      rewrite stripped_pair_ok by assumption.
      apply IH; [simpl in Hl; lia | exact Hr]. }
  now apply (H (length l)).
Qed.

Lemma join_space_last (l : list pystr) :
  l <> [] -> exists pre, join_space l = pre ++ last l [].
Proof.
  induction l as [|x r IH]; [congruence|]. intros _.
  destruct r as [|y r]; [now exists []|].
  destruct (IH ltac:(discriminate)) as (pre & E).
  exists (x ++ [SP] ++ pre). rewrite join_space_cons by discriminate.
  rewrite E. cbn [last]. now rewrite <- !app_assoc.
Qed.

Lemma last_app_r {A : Type} (a b : list A) (d : A) :
  b <> [] -> last (a ++ b) d = last b d.
Proof.
  intros Hb. induction a as [|x a IH]; [reflexivity|].
  cbn [app last]. rewrite IH. destruct (a ++ b) eqn:E; [|reflexivity].
  apply app_eq_nil in E as [_ E]. contradiction.
Qed.

Lemma last_in {A : Type} (l : list A) (d : A) : l <> [] -> In (last l d) l.
Proof.
  induction l as [|x r IH]; [congruence|]. intros _.
  destruct r as [|y r]; [now left|]. right. apply IH. discriminate.
Qed.

(** X21. Every sentence of the segmenter ends with ".", "!" or "?" and
    holds no terminator followed by whitespace; every emitted chunk ends
    with a terminator too, since it ends with a whole sentence. *)
Theorem X21_terminated_sentences_and_chunks (chunk_size : Z)
    (full_text : pystr) :
  let sentences := split_sentences full_text in
  Forall (fun x => ends_with_terminator x = true /\ has_boundary x = false)
         sentences
  /\ Forall (fun c => ends_with_terminator c = true)
            (chunk_sentences chunk_size sentences).
Proof.
  intros sentences.
  assert (Hs : forall x, In x sentences -> sentence_ok x = true).
  { pose proof (pair_up_sentences_ok _ (re_split_shape full_text)) as H.
    rewrite <- split_sentences_pairs, forallb_forall in H. exact H. }
  split.
  - apply Forall_forall. intros x Hx. specialize (Hs x Hx).
    apply andb_prop in Hs as [H1 H2]. now apply negb_true_iff in H2.
  - destruct (chunk_sentences_packed chunk_size sentences
                (split_sentences_clean full_text)) as (prev & ws & P & Es & Ee).
    rewrite Ee. apply Forall_forall. intros c Hc.
    apply in_map_iff in Hc as ([ov home] & <- & Hw).
    pose proof (packed_windows _ _ _ P) as F. rewrite Forall_forall in F.
    destruct (F _ Hw) as [[Hne _] _]. cbn [fst snd] in Hne.
    unfold window_text. cbn [fst snd].
    destruct (join_space_last (ov ++ home)) as (pre & E).
    { intros E. now apply app_eq_nil in E as [_ E]. }
    rewrite E, last_app_r by assumption.
    assert (Hl : sentence_ok (last home []) = true).
    { apply Hs. rewrite <- Es. apply in_concat. exists home.
      split; [|now apply last_in].
      apply in_map_iff. now exists (ov, home). }
    apply andb_prop in Hl as [Hl _].
    rewrite ends_with_terminator_app_r; [exact Hl|].
    intros En. rewrite En in Hl. discriminate.
Qed.
